(** * WOMBAT cable model: [wombat/windfarm/system/cable.py]

    A shallow embedding of the [Cable] class: its construction (the
    topology snapshot taken from the farm graph), the two timer
    generators [run_single_failure] and [run_single_maintenance], and the
    cascading shutdown of [stop_all_upstream_processes].

    Simulated time and operating levels are Python floats in the source;
    they are modelled as rationals ([Q]), i.e. without rounding. *)

From Stdlib Require Import QArith Lqa.
From stdpp Require Import gmap strings list fin_maps pretty.

Open Scope string_scope.
Open Scope list_scope.

(** ** Module constants *)

Definition HOURS : Z := 8760.
Definition TIMEOUT : Z := 24.

(** ** Identifiers *)

Definition node := string.
Definition edge := (node * node)%type.

(** ** The farm graph and the two networkx traversals used by [__init__]

    [windfarm.graph] is a [networkx.DiGraph]: a dict from node to the
    dict of its successors, both in insertion order.  Only the order of a
    node's successors matters for a traversal from one source. *)

Definition DiGraph := list (node * list node).

(** [G[n]]: the adjacency of [n]; [None] stands for Python's KeyError. *)
Fixpoint adj (G : DiGraph) (n : node) : option (list node) :=
  match G with
  | [] => None
  | (k, vs) :: G' => if decide (k = n) then Some vs else adj G' n
  end.

(** Results of the traversal loops: the loops are [while stack:] loops,
    run here with a step budget. *)
Inductive res (A : Type) : Type :=
  | Done (a : A)
  | KeyError (k : node)
  | OutOfFuel.
Arguments Done {A} a.
Arguments KeyError {A} k.
Arguments OutOfFuel {A}.

Definition res_map {A B} (f : A → B) (r : res A) : res B :=
  match r with
  | Done a => Done (f a)
  | KeyError k => KeyError k
  | OutOfFuel => OutOfFuel
  end.

(** [networkx.dfs_edges(G, source)]: the body of [while stack:].  The top
    frame holds a parent and the iterator over its remaining children; a
    child not yet visited is yielded as the edge [(parent, child)], marked
    and pushed with [iter(G[child])]; an exhausted iterator pops the
    frame.  One item of the iterator is consumed per step.  The
    [depth_limit] defaults to [len(G)] and never binds. *)
Fixpoint dfs_loop (fuel : nat) (G : DiGraph) (visited : list node)
    (stack : list (node * list node)) : res (list edge) :=
  match fuel with
  | O => OutOfFuel
  | S fuel' =>
    match stack with
    | [] => Done []
    | (parent, []) :: stack' => dfs_loop fuel' G visited stack'
    | (parent, child :: children) :: stack' =>
      if bool_decide (child ∈ visited)
      then dfs_loop fuel' G visited ((parent, children) :: stack')
      else
        match adj G child with
        | None => KeyError child
        | Some cs =>
          res_map (cons (parent, child))
            (dfs_loop fuel' G (child :: visited)
               ((child, cs) :: (parent, children) :: stack'))
        end
    end
  end.

(** A step budget that always suffices (see [dfs_loop_total]). *)
Definition graph_weight (G : DiGraph) : nat :=
  sum_list (map (λ kv, S (length kv.2)) G).

Definition dfs_edges (G : DiGraph) (source : node) : res (list edge) :=
  match adj G source with
  | None => KeyError source
  | Some cs => dfs_loop (S (graph_weight G)) G [source] [(source, cs)]
  end.

(** [d[s].append(t)] on a [defaultdict(list)]: an existing key keeps its
    place, a new key goes last. *)
Fixpoint dict_append (d : list (node * list node)) (s t : node)
    : list (node * list node) :=
  match d with
  | [] => [(s, [t])]
  | (k, vs) :: d' =>
    if decide (k = s) then (k, vs ++ [t]) :: d'
    else (k, vs) :: dict_append d' s t
  end.

(** [networkx.dfs_successors(G, source)] *)
Definition group_edges (es : list edge) : list (node * list node) :=
  foldl (λ d e, dict_append d e.1 e.2) [] es.

Definition dfs_successors (G : DiGraph) (source : node)
    : res (list (node * list node)) :=
  res_map group_edges (dfs_edges G source).

(** [networkx.dfs_preorder_nodes(G, source)]: the nodes in the order in
    which the depth-first search discovers them. *)
Definition dfs_preorder_nodes (G : DiGraph) (source : node) : res (list node) :=
  res_map (λ es, source :: map snd es) (dfs_edges G source).

(** [networkx.edge_dfs(G, source)] on a directed graph without
    orientation.  [edges] is the dict of per-node edge iterators, shared
    by every occurrence of the node on the stack. *)
Record edge_dfs_state := {
  visited_edges : list edge;
  visited_nodes : list node;
  edges : list (node * list edge);
  stack : list node
}.

Fixpoint dict_get {V} (d : list (node * V)) (k : node) : option V :=
  match d with
  | [] => None
  | (k', v) :: d' => if decide (k' = k) then Some v else dict_get d' k
  end.

Fixpoint dict_set {V} (d : list (node * V)) (k : node) (v : V) : list (node * V) :=
  match d with
  | [] => [(k, v)]
  | (k', v') :: d' =>
    if decide (k' = k) then (k', v) :: d' else (k', v') :: dict_set d' k v
  end.

Definition edges_from (G : DiGraph) (n : node) : option (list edge) :=
  (λ vs, map (λ v, (n, v)) vs) <$> adj G n.

(** The first visit of the node on top of the stack:
    [edges[current_node] = edges_from(current_node)]. *)
Definition edge_dfs_enter (G : DiGraph) (s : edge_dfs_state)
    (current_node : node) : option edge_dfs_state :=
  if bool_decide (current_node ∈ visited_nodes s) then Some s
  else
    (λ it, {| visited_edges := visited_edges s;
              visited_nodes := current_node :: visited_nodes s;
              edges := dict_set (edges s) current_node it;
              stack := stack s |}) <$> edges_from G current_node.

Fixpoint edge_dfs_loop (fuel : nat) (G : DiGraph) (s : edge_dfs_state)
    : res (list edge) :=
  match fuel with
  | O => OutOfFuel
  | S fuel' =>
    match stack s with
    | [] => Done []
    | current_node :: stack' =>
      match edge_dfs_enter G s current_node with
      | None => KeyError current_node
      | Some s1 =>
        match dict_get (edges s1) current_node with
        | None | Some [] =>
          edge_dfs_loop fuel' G
            {| visited_edges := visited_edges s1;
               visited_nodes := visited_nodes s1;
               edges := edges s1;
               stack := stack' |}
        | Some (e :: rest) =>
          let edges' := dict_set (edges s1) current_node rest in
          if bool_decide (e ∈ visited_edges s1)
          then edge_dfs_loop fuel' G
                 {| visited_edges := visited_edges s1;
                    visited_nodes := visited_nodes s1;
                    edges := edges';
                    stack := stack s1 |}
          else res_map (cons e)
                 (edge_dfs_loop fuel' G
                    {| visited_edges := e :: visited_edges s1;
                       visited_nodes := visited_nodes s1;
                       edges := edges';
                       stack := e.2 :: stack s1 |})
        end
      end
    end
  end.

Definition edge_weight (G : DiGraph) : nat :=
  sum_list (map (λ kv, length kv.2) G).

Definition edge_dfs (G : DiGraph) (source : node) : res (list edge) :=
  edge_dfs_loop (S (S (2 * edge_weight G))) G
    {| visited_edges := []; visited_nodes := []; edges := []; stack := [source] |}.

(** ** Data handed to the cable by its collaborators *)

(** A reference to a [simpy] event object: its index in the event store
    of the environment. *)
Definition event := nat.

(** Keys of [Cable.processes]: a failure level, or ["m{i}"] for the
    i-th maintenance task. *)
Inductive pkey :=
  | KLevel (level : Z)
  | KMaint (i : nat).

Global Instance pkey_eq_dec : EqDecision pkey.
Proof. solve_decision. Defined.

(** [wombat.core.Failure], as far as the cable uses it.  The method
    [hours_to_next_failure()] samples a distribution; the sample returned
    by the n-th call is [hours_to_next_failure n], [None] being Python's
    [None]. *)
Record Failure := {
  level : Z;
  operation_reduction : Q;
  description : string;
  hours_to_next_failure : nat → option Q;
  f_request_id : option nat
}.

(** [wombat.core.Maintenance], as far as the cable uses it. *)
Record Maintenance := {
  frequency : Q;
  m_description : string;
  m_request_id : option nat
}.

Inductive Details :=
  | OfFailure (f : Failure)
  | OfMaintenance (m : Maintenance).

(** [wombat.core.RepairRequest]; [request_id] is absent until the repair
    manager assigns it. *)
Record RepairRequest := {
  system_id : string;
  system_name : string;
  subassembly_id : string;
  subassembly_name : string;
  severity_level : Z;
  details : Details;
  cable : bool;
  upstream_turbines : list node;
  r_upstream_cables : list edge;
  request_id : option nat
}.

(** The keyword arguments of [env.log_action]; an argument that is not
    passed, or is [np.nan], is [None]. *)
Record LogEntry := {
  log_system_id : option string;
  log_system_name : option string;
  log_part_id : option string;
  log_part_name : option string;
  log_system_ol : option Q;
  log_part_ol : option Q;
  log_agent : string;
  log_action_tag : string;
  log_reason : string;
  log_additional : string;
  log_request_id : option nat
}.

(** The turbine or substation at a node (class [System], outside this
    file), as far as the cable reads and writes it. *)
Record System := {
  sys_id : string;
  sys_name : string;
  sys_operating_level : Q;
  cable_failure : event
}.

(** [SubassemblyData.from_dict(cable_data)] *)
Record SubassemblyData := {
  data_name : string;
  failures : list (Z * Failure);
  maintenance : list Maintenance
}.

(** The attributes of a [Cable] object.  [system] refers to the system
    object stored at the start node of the farm graph; [processes] lists
    the keys of the process dict in insertion order, a process being
    identified by its cable and its key. *)
Record Cable := {
  connection_type : string;
  start_node : node;
  end_node : node;
  id : string;
  system : node;
  upstream_nodes : list node;
  upstream_cables : list edge;
  data : SubassemblyData;
  name : string;
  operating_level : Q;
  servicing : event;
  downstream_failure : event;
  broken : event;
  processes : list pkey
}.

Definition set_operating_level (c : Cable) (ol : Q) : Cable :=
  {| connection_type := connection_type c; start_node := start_node c;
     end_node := end_node c; id := id c; system := system c;
     upstream_nodes := upstream_nodes c; upstream_cables := upstream_cables c;
     data := data c; name := name c; operating_level := ol;
     servicing := servicing c; downstream_failure := downstream_failure c;
     broken := broken c; processes := processes c |}.

Definition set_downstream_failure (c : Cable) (e : event) : Cable :=
  {| connection_type := connection_type c; start_node := start_node c;
     end_node := end_node c; id := id c; system := system c;
     upstream_nodes := upstream_nodes c; upstream_cables := upstream_cables c;
     data := data c; name := name c; operating_level := operating_level c;
     servicing := servicing c; downstream_failure := e;
     broken := broken c; processes := processes c |}.

Definition set_broken (c : Cable) (e : event) : Cable :=
  {| connection_type := connection_type c; start_node := start_node c;
     end_node := end_node c; id := id c; system := system c;
     upstream_nodes := upstream_nodes c; upstream_cables := upstream_cables c;
     data := data c; name := name c; operating_level := operating_level c;
     servicing := servicing c; downstream_failure := downstream_failure c;
     broken := e; processes := processes c |}.

Definition set_cable_failure (s : System) (e : event) : System :=
  {| sys_id := sys_id s; sys_name := sys_name s;
     sys_operating_level := sys_operating_level s; cable_failure := e |}.

(** Calls that leave the cable, in the order in which they are made. *)
Inductive effect :=
  | EInterrupt (target : edge * pkey)
  | ESystemInterrupt (n : node)
  | ELog (l : LogEntry)
  | ERegister (r : RepairRequest)
  | EPurge (system_id subassembly_id : string) (exclude : list nat)
  | ESubmit (r : RepairRequest).

(** Python exceptions.  [OutOfBudget] is not one of them: it stands for
    a traversal loop that used up its step budget, which does not happen
    (see [dfs_edges_total] and [edge_dfs_total]). *)
Inductive exn :=
  | AssertionError
  | UnboundLocalError (var : string)
  | LookupError (key : string)
  | AttributeError (attr : string)
  | ValueError (msg : string)
  | TypeError
  | OutOfBudget
  | RuntimeError.

(** ** The repair manager

    Modelled from the spec: the repair manager (class [RepairManager],
    outside this file) is taken as an interface.  Spec section 6:
    [registerRequest(request) -> request-with-id],
    [submitRequest(request)] enqueues the request for dispatch, and
    [purgeRequests(systemId, partId, exclude=[ids])] removes the pending
    requests of that system and part whose id is not excluded.  [items]
    observes the pending requests. *)
Definition purge_matches (s p : string) (exclude : list nat)
    (r : RepairRequest) : bool :=
  bool_decide (system_id r = s) && bool_decide (subassembly_id r = p)
  && match request_id r with
     | Some i => negb (bool_decide (i ∈ exclude))
     | None => true
     end.

Class RepairManager (M : Type) := {
  register_request : M → RepairRequest → M * RepairRequest;
  purge_subassembly_requests : M → string → string → list nat → M;
  submit_request : M → RepairRequest → M;
  items : M → list RepairRequest;
  register_request_id m r : is_Some (request_id (register_request m r).2);
  register_items m r : items (register_request m r).1 = items m;
  submit_items m r : items (submit_request m r) = items m ++ [r];
  purge_items m s p ex :
    items (purge_subassembly_requests m s p ex) =
    filter (λ r, purge_matches s p ex r = false) (items m)
}.

Definition Qlt_bool (x y : Q) : bool := negb (Qle_bool y x).

(** [f"cable::{start_node}::{end_node}"] *)
Definition cable_id (start_node end_node : node) : string :=
  "cable::" +:+ start_node +:+ "::" +:+ end_node.

Section Core.
Context {M : Type} `{RepairManager M}.

(** ** The simulation state

    [events] is the store of event objects ([true]: triggered, i.e. the
    signal is clear; [false]: pending, i.e. blocked); [systems] and
    [cables] are the objects behind [windfarm.system(node)] and
    [windfarm.cable(edge)]; [active] is the process that is running. *)
Record World := {
  now : Q;
  max_run_time : Q;
  events : list bool;
  graph : DiGraph;
  systems : gmap node System;
  cables : gmap edge Cable;
  manager : M;
  active : option (edge * pkey);
  trace : list effect
}.

Definition with_events (w : World) (ev : list bool) : World :=
  {| now := now w; max_run_time := max_run_time w; events := ev;
     graph := graph w; systems := systems w; cables := cables w;
     manager := manager w; active := active w; trace := trace w |}.

Definition with_systems (w : World) (ss : gmap node System) : World :=
  {| now := now w; max_run_time := max_run_time w; events := events w;
     graph := graph w; systems := ss; cables := cables w;
     manager := manager w; active := active w; trace := trace w |}.

Definition with_cables (w : World) (cs : gmap edge Cable) : World :=
  {| now := now w; max_run_time := max_run_time w; events := events w;
     graph := graph w; systems := systems w; cables := cs;
     manager := manager w; active := active w; trace := trace w |}.

Definition with_manager (w : World) (m : M) : World :=
  {| now := now w; max_run_time := max_run_time w; events := events w;
     graph := graph w; systems := systems w; cables := cables w;
     manager := m; active := active w; trace := trace w |}.

Definition with_trace (w : World) (t : list effect) : World :=
  {| now := now w; max_run_time := max_run_time w; events := events w;
     graph := graph w; systems := systems w; cables := cables w;
     manager := manager w; active := active w; trace := t |}.

Definition with_active (w : World) (a : option (edge * pkey)) : World :=
  {| now := now w; max_run_time := max_run_time w; events := events w;
     graph := graph w; systems := systems w; cables := cables w;
     manager := manager w; active := a; trace := trace w |}.

Definition with_now (w : World) (t : Q) : World :=
  {| now := t; max_run_time := max_run_time w; events := events w;
     graph := graph w; systems := systems w; cables := cables w;
     manager := manager w; active := active w; trace := trace w |}.

(** [event.triggered] *)
Definition triggered (w : World) (e : event) : bool :=
  default false (events w !! e).

(** Code that reads and writes the state and may raise. *)
Definition CM (A : Type) : Type := World → (exn + A) * World.

Definition ret {A} (a : A) : CM A := λ w, (inr a, w).
Definition raise {A} (e : exn) : CM A := λ w, (inl e, w).
Definition bind {A B} (c : CM A) (k : A → CM B) : CM B :=
  λ w, match c w with
       | (inl e, w') => (inl e, w')
       | (inr a, w') => k a w'
       end.

Notation "'do' x <- c ; k" := (bind c (λ x, k))
  (at level 10, x name, c at level 100, k at level 200).
Notation "c ;;; k" := (bind c (λ _, k))
  (at level 100, k at level 200, right associativity).

Fixpoint for_each {A} (l : list A) (body : A → CM unit) : CM unit :=
  match l with
  | [] => ret tt
  | x :: l' => body x ;;; for_each l' body
  end.

(** [self.env.event()]: a new event object, pending. *)
Definition new_event : CM event :=
  λ w, (inr (length (events w)), with_events w (events w ++ [false])).

Definition emit (e : effect) : CM unit :=
  λ w, (inr tt, with_trace w (trace w ++ [e])).

Definition log_action (l : LogEntry) : CM unit := emit (ELog l).

(** [self.windfarm.system(node)] *)
Definition windfarm_system (n : node) : CM System :=
  λ w, match systems w !! n with
       | Some s => (inr s, w)
       | None => (inl (LookupError n), w)
       end.

(** [self.windfarm.cable(edge)]; also the lookup of [self]. *)
Definition windfarm_cable (e : edge) : CM Cable :=
  λ w, match cables w !! e with
       | Some c => (inr c, w)
       | None => (inl (LookupError (cable_id e.1 e.2)), w)
       end.

Definition update_system (n : node) (f : System → System) : CM unit :=
  λ w, (inr tt, with_systems w (alter f n (systems w))).

Definition update_cable (e : edge) (f : Cable → Cable) : CM unit :=
  λ w, (inr tt, with_cables w (alter f e (cables w))).

(** [process.interrupt()]: simpy raises RuntimeError when a process
    interrupts itself, and otherwise schedules the interrupt. *)
Definition process_interrupt (target : edge * pkey) : CM unit :=
  λ w, if bool_decide (active w = Some target)
       then (inl RuntimeError, w)
       else emit (EInterrupt target) w.

(** [try: ... except RuntimeError: pass] *)
Definition except_RuntimeError (c : CM unit) : CM unit :=
  λ w, match c w with
       | (inl RuntimeError, w') => (inr tt, w')
       | r => r
       end.

(** [Cable.interrupt_processes] *)
Definition interrupt_processes (self : edge) : CM unit :=
  do c <- windfarm_cable self;
  for_each (processes c)
    (λ k, except_RuntimeError (process_interrupt (self, k))).

Definition upstream_notice : string :=
  "cable failure shutting off all upstream cables and turbines that are still operating".

(** [Cable.interrupt_all_subassembly_processes] *)
Definition interrupt_all_subassembly_processes (self : edge) : CM unit :=
  interrupt_processes self.

(** The body of the first loop of [stop_all_upstream_processes].  The
    log reads [failure.request_id], which holds what the last
    registration of a request for [failure] wrote there (see
    [assigned]). *)
Definition stop_upstream_node (self : edge) (failure : Failure)
    (node : node) : CM unit :=
  do system <- windfarm_system node;
  emit (ESystemInterrupt node) ;;;
  do e <- new_event;
  update_system node (λ s, set_cable_failure s e) ;;;
  do system <- windfarm_system node;
  do me <- windfarm_cable self;
  log_action
    {| log_system_id := Some node;
       log_system_name := Some (sys_name system);
       log_part_id := None;
       log_part_name := None;
       log_system_ol := Some (sys_operating_level system);
       log_part_ol := None;
       log_agent := name me;
       log_action_tag := "repair request";
       log_reason := description failure;
       log_additional := upstream_notice;
       log_request_id := f_request_id failure |}.

(** The body of its second loop; [failure.request_id] as in the first. *)
Definition stop_upstream_cable (self : edge) (failure : Failure)
    (edge : edge) : CM unit :=
  do cable <- windfarm_cable edge;
  interrupt_processes edge ;;;
  do e <- new_event;
  update_cable edge (λ c', set_downstream_failure c' e) ;;;
  do cable <- windfarm_cable edge;
  do me <- windfarm_cable self;
  log_action
    {| log_system_id := None;
       log_system_name := None;
       log_part_id := Some (id cable);
       log_part_name := Some (name cable);
       log_system_ol := None;
       log_part_ol := Some (operating_level cable);
       log_agent := name me;
       log_action_tag := "repair request";
       log_reason := description failure;
       log_additional := upstream_notice;
       log_request_id := f_request_id failure |}.

(** [Cable.stop_all_upstream_processes] *)
Definition stop_all_upstream_processes (self : edge) (failure : Failure)
    : CM unit :=
  do c <- windfarm_cable self;
  for_each (upstream_nodes c) (stop_upstream_node self failure) ;;;
  for_each (upstream_cables c) (stop_upstream_cable self failure).

(** ** The repair manager calls *)

Definition manager_register (r : RepairRequest) : CM RepairRequest :=
  λ w, let mr := register_request (manager w) r in
       (inr mr.2, with_trace (with_manager w mr.1) (trace w ++ [ERegister r])).

Definition manager_purge (s p : string) (exclude : list nat) : CM unit :=
  λ w, (inr tt,
        with_trace
          (with_manager w (purge_subassembly_requests (manager w) s p exclude))
          (trace w ++ [EPurge s p exclude])).

Definition manager_submit (r : RepairRequest) : CM unit :=
  λ w, (inr tt,
        with_trace (with_manager w (submit_request (manager w) r))
          (trace w ++ [ESubmit r])).

(** [repair_request.request_id] *)
Definition get_request_id (r : RepairRequest) : CM nat :=
  match request_id r with
  | Some i => ret i
  | None => raise (AttributeError "request_id")
  end.

(** ** The timer generators

    A generator is paused at one of its three [yield]s; it is resumed
    either with the value of the event it waits for or with
    [simpy.Interrupt] thrown at the [yield]. *)
Inductive point := AtHorizon | AtGate | AtCountdown.

Inductive yielded :=
  | Timeout (delay : Q)
  | AllOf (e1 e2 e3 : event).

Inductive signal := Resume | Interrupt.

(** The local variables of a generator; [None] in [remainder] and
    [start] is an unbound local, [None] in [hours_to_next] is Python's
    [None].  [draws] counts the calls of the hazard function. *)
Record locals := {
  hours_to_next : option Q;
  remainder : option Q;
  start : option Q;
  draws : nat
}.

Definition locals0 : locals :=
  {| hours_to_next := None; remainder := None; start := None; draws := 0 |}.

Definition set_hours_to_next (l : locals) (h : option Q) : locals :=
  {| hours_to_next := h; remainder := remainder l; start := start l;
     draws := draws l |}.

Definition set_remainder (l : locals) (r : Q) : locals :=
  {| hours_to_next := hours_to_next l; remainder := Some r; start := start l;
     draws := draws l |}.

Definition set_start (l : locals) (t : Q) : locals :=
  {| hours_to_next := hours_to_next l; remainder := remainder l;
     start := Some t; draws := draws l |}.

Definition next_draw (l : locals) (h : option Q) : locals :=
  {| hours_to_next := h; remainder := remainder l; start := start l;
     draws := S (draws l) |}.

(** What a run of the generator up to its next [yield] comes to:
    paused at a [yield], ended by an uncaught exception, or still in its
    [while True] loop after the budget of iterations. *)
Inductive outcome :=
  | Suspended (p : point) (y : yielded) (l : locals) (w : World)
  | Raised (e : exn) (w : World)
  | Spinning (w : World).

Definition outcome_world (o : outcome) : World :=
  match o with
  | Suspended _ _ _ w | Raised _ w | Spinning w => w
  end.

(** [yield self.env.timeout(delay)]; simpy refuses a negative delay. *)
Definition env_timeout (p : point) (delay : Q) (l : locals) (w : World)
    : outcome :=
  if Qlt_bool delay 0%Q then Raised (ValueError "Negative delay") w
  else Suspended p (Timeout delay) l w.

(** [yield self.servicing & self.downstream_failure & self.broken] *)
Definition gate (self : edge) (l : locals) (w : World) : outcome :=
  match cables w !! self with
  | Some c =>
    Suspended AtGate
      (AllOf (servicing c) (downstream_failure c) (broken c)) l w
  | None => Raised (LookupError (cable_id self.1 self.2)) w
  end.

(** [while hours_to_next > 0:] up to the first [yield] of its body;
    [k] is the code after the loop. *)
Definition while_hours (k : locals → World → outcome) (self : edge)
    (l : locals) (w : World) : outcome :=
  match hours_to_next l with
  | Some h => if Qlt_bool 0%Q h then gate self l w else k l w
  | None => Raised TypeError w
  end.

(** The [except simpy.Interrupt:] clause of the inner loop, the same in
    both generators. *)
Definition on_interrupt (self : edge) (l : locals) (w : World)
    : exn + locals :=
  match cables w !! self with
  | None => inl (LookupError (cable_id self.1 self.2))
  | Some c =>
    if negb (triggered w (broken c)) then inr (set_hours_to_next l (Some 0%Q))
    else
      match start l, hours_to_next l with
      | None, _ => inl (UnboundLocalError "start")
      | Some s, Some h => inr (set_hours_to_next l (Some (h - (now w - s))%Q))
      | Some _, None => inl TypeError
      end
  end.

(** The [except simpy.Interrupt:] clause of the horizon wait. *)
Definition on_horizon_interrupt (l : locals) (w : World) : exn + locals :=
  match remainder l with
  | Some r => inr (set_remainder l (r - now w)%Q)
  | None => inl (UnboundLocalError "remainder")
  end.

(** *** [run_single_failure] *)

Definition failure_request (c : Cable) (failure : Failure) : RepairRequest :=
  {| system_id := id c;
     system_name := name c;
     subassembly_id := id c;
     subassembly_name := name c;
     severity_level := level failure;
     details := OfFailure failure;
     cable := true;
     upstream_turbines := upstream_nodes c;
     r_upstream_cables := upstream_cables c;
     request_id := None |}.

(** [failure] once [register_request] has returned [r]: the manager
    assigns the request its id and, the request holding a reference to
    the failure as its [details], writes the same id into the failure's
    [request_id] (spec sections 3 and 4.3: the request refers to the
    triggering spec, and the shutdown uses this failure's request
    id). *)
Definition assigned (failure : Failure) (r : RepairRequest) : Failure :=
  {| level := level failure;
     operation_reduction := operation_reduction failure;
     description := description failure;
     hours_to_next_failure := hours_to_next_failure failure;
     f_request_id := request_id r |}.

(** The body of the [try] after the countdown, lines 305-347. *)
Definition failure_occurs (self : edge) (failure : Failure) : CM unit :=
  update_cable self
    (λ c, set_operating_level c
            (operating_level c * (1 - operation_reduction failure))%Q) ;;;
  do c <- windfarm_cable self;
  do repair_request <- manager_register (failure_request c failure);
  (if Qeq_bool (operation_reduction failure) 1%Q then
     do e <- new_event;
     update_cable self (λ c', set_broken c' e) ;;;
     do c <- windfarm_cable self;
     do rid <- get_request_id repair_request;
     manager_purge (id c) (id c) [rid] ;;;
     interrupt_processes self ;;;
     stop_all_upstream_processes self (assigned failure repair_request)
   else ret tt) ;;;
  do c <- windfarm_cable self;
  do system <- windfarm_system (system c);
  do rid <- get_request_id repair_request;
  log_action
    {| log_system_id := Some (id c);
       log_system_name := Some (name c);
       log_part_id := Some (id c);
       log_part_name := Some (name c);
       log_system_ol := Some (sys_operating_level system);
       log_part_ol := Some (operating_level c);
       log_agent := name c;
       log_action_tag := "repair request";
       log_reason := description failure;
       log_additional := "severity level " +:+ pretty (level failure);
       log_request_id := Some rid |} ;;;
  manager_submit repair_request.

(** [assert isinstance(hours_to_next, (int, float))] and the inner loop. *)
Definition failure_tail (k : locals → World → outcome) (self : edge)
    (l : locals) (w : World) : outcome :=
  match hours_to_next l with
  | None => Raised AssertionError w
  | Some _ => while_hours k self l w
  end.

(** [while True:] from the hazard draw to the first [yield]. *)
Fixpoint failure_loop (fuel : nat) (self : edge) (failure : Failure)
    (l : locals) (w : World) : outcome :=
  match fuel with
  | O => Spinning w
  | S fuel' =>
    let l1 := next_draw l (hours_to_next_failure failure (draws l)) in
    match hours_to_next l1 with
    | None =>
      let r := (max_run_time w - now w)%Q in
      env_timeout AtHorizon r (set_remainder l1 r) w
    | Some _ => failure_tail (failure_loop fuel' self failure) self l1 w
    end
  end.

(** The generator from the call to its first [yield]. *)
Definition start_single_failure (fuel : nat) (self : edge)
    (failure : Failure) (w : World) : outcome :=
  failure_loop fuel self failure locals0 w.

(** The generator from the [yield] at [p], resumed with [sig], to its
    next [yield]. *)
Definition run_single_failure (fuel : nat) (self : edge) (failure : Failure)
    (p : point) (sig : signal) (l : locals) (w : World) : outcome :=
  let again := failure_loop fuel self failure in
  match p, sig with
  | AtHorizon, Resume => failure_tail again self l w
  | AtHorizon, Interrupt =>
    match on_horizon_interrupt l w with
    | inl e => Raised e w
    | inr l' => failure_tail again self l' w
    end
  | AtGate, Resume =>
    match hours_to_next l with
    | Some h => env_timeout AtCountdown h (set_start l (now w)) w
    | None => Raised TypeError w
    end
  | AtCountdown, Resume =>
    match failure_occurs self failure w with
    | (inl e, w') => Raised e w'
    | (inr _, w') => while_hours again self (set_hours_to_next l (Some 0%Q)) w'
    end
  | (AtGate | AtCountdown), Interrupt =>
    match on_interrupt self l w with
    | inl e => Raised e w
    | inr l' => while_hours again self l' w
    end
  end.

(** *** [run_single_maintenance] *)

Definition maintenance_request (c : Cable) (s : System) (m : Maintenance)
    : RepairRequest :=
  {| system_id := sys_id s;
     system_name := sys_name s;
     subassembly_id := id c;
     subassembly_name := name c;
     severity_level := 0%Z;
     details := OfMaintenance m;
     cable := true;
     upstream_turbines := upstream_nodes c;
     r_upstream_cables := upstream_cables c;
     request_id := None |}.

(** The body of the [try] after the countdown, lines 239-266. *)
Definition maintenance_due (self : edge) (m : Maintenance) : CM unit :=
  do c <- windfarm_cable self;
  do system <- windfarm_system (system c);
  do repair_request <- manager_register (maintenance_request c system m);
  do rid <- get_request_id repair_request;
  log_action
    {| log_system_id := Some (sys_id system);
       log_system_name := Some (sys_name system);
       log_part_id := Some (id c);
       log_part_name := Some (name c);
       log_system_ol := Some (sys_operating_level system);
       log_part_ol := Some (operating_level c);
       log_agent := name c;
       log_action_tag := "maintenance request";
       log_reason := m_description m;
       log_additional := "request";
       log_request_id := Some rid |} ;;;
  manager_submit repair_request.

Fixpoint maintenance_loop (fuel : nat) (self : edge) (m : Maintenance)
    (l : locals) (w : World) : outcome :=
  match fuel with
  | O => Spinning w
  | S fuel' =>
    let l1 := set_hours_to_next l (Some (frequency m)) in
    if Qeq_bool (frequency m) 0%Q then
      let r := (max_run_time w - now w)%Q in
      env_timeout AtHorizon r (set_remainder l1 r) w
    else while_hours (maintenance_loop fuel' self m) self l1 w
  end.

Definition start_single_maintenance (fuel : nat) (self : edge)
    (m : Maintenance) (w : World) : outcome :=
  maintenance_loop fuel self m locals0 w.

Definition run_single_maintenance (fuel : nat) (self : edge)
    (m : Maintenance) (p : point) (sig : signal) (l : locals) (w : World)
    : outcome :=
  let again := maintenance_loop fuel self m in
  match p, sig with
  | AtHorizon, Resume => while_hours again self l w
  | AtHorizon, Interrupt =>
    match on_horizon_interrupt l w with
    | inl e => Raised e w
    | inr l' => while_hours again self l' w
    end
  | AtGate, Resume =>
    match hours_to_next l with
    | Some h => env_timeout AtCountdown h (set_start l (now w)) w
    | None => Raised TypeError w
    end
  | AtCountdown, Resume =>
    match maintenance_due self m w with
    | (inl e, w') => Raised e w'
    | (inr _, w') => while_hours again self (set_hours_to_next l (Some 0%Q)) w'
    end
  | (AtGate | AtCountdown), Interrupt =>
    match on_interrupt self l w with
    | inl e => Raised e w
    | inr l' => while_hours again self l' w
    end
  end.

(** *** [Cable.__init__] *)

Definition lift_res {A} (r : res A) : CM A :=
  match r with
  | Done a => ret a
  | KeyError k => raise (LookupError k)
  | OutOfFuel => raise OutOfBudget
  end.

(** [event.succeed()] *)
Definition succeed (e : event) : CM unit :=
  λ w, (inr tt, with_events w (<[e := true]> (events w))).

(** [Cable._create_processes]: the keys of the processes it yields. *)
Definition create_processes (d : SubassemblyData) : list pkey :=
  map (λ lf, KLevel lf.1) (failures d) ++
  map KMaint (seq 0 (length (maintenance d))).

(** [list(chain([end_node], *upstream.values()))] when [upstream] is not
    empty, [[end_node]] otherwise. *)
Definition chain_upstream (end_node : node)
    (upstream : list (node * list node)) : list node :=
  if bool_decide (0 < length upstream)%nat
  then end_node :: concat (map snd upstream)
  else [end_node].

(** [windfarm.graph.nodes(data=True)[n]] *)
Definition graph_node (n : node) : CM unit :=
  λ w, match adj (graph w) n with
       | Some _ => (inr tt, w)
       | None => (inl (LookupError n), w)
       end.

Definition Cable_init (connection_type : string) (start_node end_node : node)
    (cable_data : SubassemblyData) (name : option string) : CM Cable :=
  graph_node start_node ;;;
  do system <- windfarm_system start_node;
  (if bool_decide (connection_type = "array")
      || bool_decide (connection_type = "export")
   then ret tt
   else raise (ValueError "connection_type")) ;;;
  do upstream <- (λ w, lift_res (dfs_successors (graph w) end_node) w);
  do upstream_cables <- (λ w, lift_res (edge_dfs (graph w) end_node) w);
  do servicing <- new_event;
  do downstream_failure <- new_event;
  do broken <- new_event;
  succeed servicing ;;;
  succeed downstream_failure ;;;
  succeed broken ;;;
  ret {| connection_type := connection_type;
         start_node := start_node;
         end_node := end_node;
         id := cable_id start_node end_node;
         system := start_node;
         upstream_nodes := chain_upstream end_node upstream;
         upstream_cables := upstream_cables;
         data := cable_data;
         name := default (data_name cable_data) name;
         operating_level := 1;
         servicing := servicing;
         downstream_failure := downstream_failure;
         broken := broken;
         processes := create_processes cable_data |}.

(** ** Running one timer without interrupts

    The scheduler resumes a process paused on a timeout once the delay
    has passed, and a process paused on the three signals once all of
    them are triggered; the resumed process [me] is the active one. *)
Definition advance (me : edge * pkey) (y : yielded) (w : World)
    : option World :=
  match y with
  | Timeout d => Some (with_active (with_now w (now w + d)%Q) (Some me))
  | AllOf e1 e2 e3 =>
    if triggered w e1 && triggered w e2 && triggered w e3
    then Some (with_active w (Some me)) else None
  end.

Fixpoint uninterrupted (n : nat) (me : edge * pkey)
    (resume : point → signal → locals → World → outcome) (o : outcome)
    : outcome :=
  match n with
  | O => o
  | S n' =>
    match o with
    | Suspended p y l w =>
      match advance me y w with
      | Some w' => uninterrupted n' me resume (resume p Resume l w')
      | None => o
      end
    | _ => o
    end
  end.

Definition is_submit (e : effect) : bool :=
  match e with ESubmit _ => true | _ => false end.

Definition is_register (e : effect) : bool :=
  match e with ERegister _ => true | _ => false end.

(** ** Steps of the core

    A step is a run of one of the cable's generators from one [yield] to
    the next (or to its end), for any cable, failure or maintenance task,
    at any of its [yield]s and with either signal.  [P] restricts the
    failure specifications that occur. *)
Inductive core_step (P : Failure → Prop) (w : World) : World → Prop :=
  | step_failure_start fuel self failure :
      P failure →
      core_step P w (outcome_world (start_single_failure fuel self failure w))
  | step_failure fuel self failure p sig l :
      P failure →
      core_step P w
        (outcome_world (run_single_failure fuel self failure p sig l w))
  | step_maintenance_start fuel self m :
      core_step P w (outcome_world (start_single_maintenance fuel self m w))
  | step_maintenance fuel self m p sig l :
      core_step P w
        (outcome_world (run_single_maintenance fuel self m p sig l w)).

(** Between two steps of the core the scheduler and the other
    collaborators act; they are only assumed to leave the cable objects
    as they are. *)
Inductive sim_step (P : Failure → Prop) (w w' : World) : Prop :=
  | sim_core : core_step P w w' → sim_step P w w'
  | sim_env : cables w' = cables w → sim_step P w w'.

End Core.

Arguments World M : clear implicits.
Arguments CM M A : clear implicits.
Arguments outcome M : clear implicits.

(** ** A list-based repair manager

    Modelled from the spec: the pending requests as a queue, and a
    counter from which [register_request] takes the next request id. *)
Record ListManager := {
  lm_items : list RepairRequest;
  lm_next : nat
}.

Definition assign_id (r : RepairRequest) (i : nat) : RepairRequest :=
  {| system_id := system_id r; system_name := system_name r;
     subassembly_id := subassembly_id r;
     subassembly_name := subassembly_name r;
     severity_level := severity_level r; details := details r;
     cable := cable r; upstream_turbines := upstream_turbines r;
     r_upstream_cables := r_upstream_cables r; request_id := Some i |}.

Definition lm_register (m : ListManager) (r : RepairRequest)
    : ListManager * RepairRequest :=
  ({| lm_items := lm_items m; lm_next := S (lm_next m) |},
   assign_id r (lm_next m)).

Definition lm_purge (m : ListManager) (s p : string) (ex : list nat)
    : ListManager :=
  {| lm_items := filter (λ r, purge_matches s p ex r = false) (lm_items m);
     lm_next := lm_next m |}.

Definition lm_submit (m : ListManager) (r : RepairRequest) : ListManager :=
  {| lm_items := lm_items m ++ [r]; lm_next := lm_next m |}.

Global Instance list_manager : RepairManager ListManager.
Proof.
  refine {| register_request := lm_register;
            purge_subassembly_requests := lm_purge;
            submit_request := lm_submit;
            items := lm_items |}; intros; simpl; eauto.
Defined.

(** ** A small farm for the examples

    Substation [S] and a string [T1 - T2] that branches at [T2] into
    [T3 - T5] and [T4]. *)
Definition farm_graph : DiGraph :=
  [("S", ["T1"]); ("T1", ["T2"]); ("T2", ["T3"; "T4"]); ("T3", ["T5"]);
   ("T4", []); ("T5", [])].

Definition turbine (n : node) (e : event) : System :=
  {| sys_id := n; sys_name := n; sys_operating_level := 1; cable_failure := e |}.

Definition always (h : option Q) : nat → option Q := λ _, h.

Definition failure_of (lvl : Z) (r : Q) (hz : nat → option Q) : Failure :=
  {| level := lvl; operation_reduction := r; description := "cable fault";
     hours_to_next_failure := hz; f_request_id := None |}.

Definition maintenance_of (freq : Q) : Maintenance :=
  {| frequency := freq; m_description := "inspection"; m_request_id := None |}.

Definition farm_data : SubassemblyData :=
  {| data_name := "array cable";
     failures := [(3%Z, failure_of 3 1 (always (Some 10%Q)))];
     maintenance := [maintenance_of 100] |}.

Definition farm0 : World ListManager :=
  {| now := 0; max_run_time := 500;
     events := [true; true; true; true; true; true];
     graph := farm_graph;
     systems := list_to_map
       [("S", turbine "S" 0%nat); ("T1", turbine "T1" 1%nat);
        ("T2", turbine "T2" 2%nat); ("T3", turbine "T3" 3%nat);
        ("T4", turbine "T4" 4%nat); ("T5", turbine "T5" 5%nat)];
     cables := ∅;
     manager := {| lm_items := []; lm_next := 0 |};
     active := None;
     trace := [] |}.

(** Construct the cable of an edge and store it in the farm. *)
Definition add_cable (e : edge) (w : World ListManager) : World ListManager :=
  match Cable_init "array" e.1 e.2 farm_data None w with
  | (inr c, w') => with_cables w' (<[e := c]> (cables w'))
  | (inl _, w') => w'
  end.

Definition farm : World ListManager :=
  foldr add_cable farm0
    [("S", "T1"); ("T1", "T2"); ("T2", "T3"); ("T2", "T4"); ("T3", "T5")].

Definition A : edge := ("S", "T1").

Definition fA : Failure := failure_of 3 1 (always (Some 10%Q)).

Definition fN : Failure := failure_of 3 1 (always None).
Definition fZ : Failure := failure_of 3 1 (always (Some 0%Q)).
Definition m100 : Maintenance := maintenance_of 100.
Definition m0 : Maintenance := maintenance_of 0.

(** The locals of a timer in a countdown of [h] hours begun at [s]. *)
Definition counting (h s : Q) : locals :=
  {| hours_to_next := Some h; remainder := None; start := Some s; draws := 1 |}.

(** The cable [A] of the farm, with its [broken] signal replaced by a
    pending event. *)
Definition farm_broken : World ListManager :=
  (update_cable A (λ c, set_broken c 21) (with_events farm (events farm ++ [false]))).2.

Definition cableA : Cable :=
  {| connection_type := "array"; start_node := "S"; end_node := "T1";
     id := "cable::S::T1"; system := "S";
     upstream_nodes := ["T1"; "T2"; "T3"; "T4"; "T5"];
     upstream_cables := [("T1", "T2"); ("T2", "T3"); ("T3", "T5"); ("T2", "T4")];
     data := farm_data; name := "array cable"; operating_level := 1;
     servicing := 18; downstream_failure := 19; broken := 20;
     processes := [KLevel 3; KMaint 0] |}.


Definition raised {M} (o : outcome M) : option exn :=
  match o with
  | Raised e _ => Some e
  | _ => None
  end.

(** * The terms of the properties *)

(** ** Of the traversals *)

Section TraversalTerms.
Variable G : DiGraph.

(** [b] is a successor of [a]. *)
Definition has_edge (a b : node) : Prop :=
  ∃ vs, adj G a = Some vs ∧ b ∈ vs.

(** Every successor is a node of the graph, as networkx has it. *)
Definition closed_graph : Prop :=
  ∀ a b, has_edge a b → is_Some (adj G b).

Definition unvisited_weight (visited : list node) (g : DiGraph) : nat :=
  sum_list (map (λ kv, if bool_decide (kv.1 ∈ visited) then 0%nat
                       else S (length kv.2)) g).

Definition stack_weight (stack : list (node * list node)) : nat :=
  sum_list (map (λ f, S (length f.2)) stack).

(** Every node waiting in a frame of the stack is a node of the graph. *)
Definition stack_in_graph (stack : list (node * list node)) : Prop :=
  ∀ p rest v, (p, rest) ∈ stack → v ∈ rest → is_Some (adj G v).

(** The state of the search from [source]: what is visited is
    reachable, the frames hold visited nodes and the rest of their
    successors, and every successor of a visited node is visited or
    still waits in a frame. *)
Definition dfs_inv (source : node) (visited : list node)
    (stack : list (node * list node)) : Prop :=
  source ∈ visited ∧
  (∀ v, v ∈ visited → rtc has_edge source v) ∧
  (∀ p rest, (p, rest) ∈ stack →
     p ∈ visited ∧ (∀ v, v ∈ rest → has_edge p v)) ∧
  (∀ v u, v ∈ visited → has_edge v u →
     u ∈ visited ∨ ∃ rest, (v, rest) ∈ stack ∧ u ∈ rest).

Definition unvisited_edges (visited : list node) (g : DiGraph) : nat :=
  sum_list (map (λ kv, if bool_decide (kv.1 ∈ visited) then 0%nat
                       else length kv.2) g).

Definition dict_weight (d : list (node * list edge)) : nat :=
  sum_list (map (λ kv, length kv.2) d).

Definition edge_dfs_weight (s : edge_dfs_state) : nat :=
  2 * unvisited_edges (visited_nodes s) G + 2 * dict_weight (edges s)
  + length (stack s).

Definition edge_dfs_inv (s : edge_dfs_state) : Prop :=
  (∀ n, n ∈ stack s → is_Some (adj G n)) ∧
  (∀ k it e, dict_get (edges s) k = Some it → e ∈ it → is_Some (adj G e.2)) ∧
  (∀ k, is_Some (dict_get (edges s) k) → k ∈ visited_nodes s).

End TraversalTerms.

(** A check of [closed_graph] that computes. *)
Definition closed_graphb (G : DiGraph) : bool :=
  forallb (λ kv, forallb (λ v, bool_decide (is_Some (adj G v))) kv.2) G.

(** ** Of the states *)

Section CableRelations.
Context {M : Type}.
Variable R : Cable → Cable → Prop.

(** The cable objects of [w'] are those of [w], each related by [R]. *)
Definition cables_rel (w w' : World M) : Prop :=
  ∀ e, option_Forall2 R (cables w !! e) (cables w' !! e).

Definition preserves {A} (c : CM M A) : Prop :=
  ∀ w r w', c w = (r, w') → cables_rel w w'.

End CableRelations.

Definition valid_reduction (failure : Failure) : Prop :=
  (0 <= operation_reduction failure <= 1)%Q.

Definition level_kept (c c' : Cable) : Prop :=
  (0 <= operating_level c <= 1 →
   0 <= operating_level c' <= operating_level c)%Q.

(** A cable with the topology snapshot of [c]. *)
Definition same_topology (c c' : Cable) : Prop :=
  upstream_nodes c' = upstream_nodes c ∧
  upstream_cables c' = upstream_cables c.

Section StateTerms.
Context {M : Type}.

(** A maintenance timer of frequency zero that is paused for the rest
    of the horizon; [w0] is the state in which it was started. *)
Definition waits_for_horizon (m : Maintenance) (w0 : World M)
    (o : outcome M) (d : Q) : Prop :=
  ∃ l w', o = Suspended AtHorizon (Timeout d) l w' ∧
    hours_to_next l = Some (frequency m) ∧
    trace w' = trace w0 ∧ manager w' = manager w0 ∧
    max_run_time w' = max_run_time w0 ∧
    (now w' + d == max_run_time w0)%Q ∧ (0 <= d)%Q.

(** [c] makes calls that are not registrations only. *)
Definition registers_nothing {A} (c : CM M A) : Prop :=
  ∀ w r w', c w = (r, w') →
    filter is_register (trace w') = filter is_register (trace w).

(** [c] started in a state with [Pre] returns, without raising, in a
    state with [Post]. *)
Definition returns {A} (Pre : World M → Prop) (c : CM M A)
    (Post : A → World M → Prop) : Prop :=
  ∀ w, Pre w → ∃ a w', c w = (inr a, w') ∧ Post a w'.

(** The interrupts that [interrupt_processes] schedules for the cable at
    [e] with process keys [ks]: one per process, the running process
    left out. *)
Definition interrupts_of (running : option (edge * pkey)) (e : edge)
    (ks : list pkey) : list effect :=
  map (λ k, EInterrupt (e, k))
    (filter (λ k, running ≠ Some (e, k)) ks).

(** The log entries of the cascade, for a system and for a cable. *)
Definition upstream_node_log (agent : string) (failure : Failure)
    (n : node) (s : System) : LogEntry :=
  {| log_system_id := Some n;
     log_system_name := Some (sys_name s);
     log_part_id := None;
     log_part_name := None;
     log_system_ol := Some (sys_operating_level s);
     log_part_ol := None;
     log_agent := agent;
     log_action_tag := "repair request";
     log_reason := description failure;
     log_additional := upstream_notice;
     log_request_id := f_request_id failure |}.

Definition upstream_cable_log (agent : string) (failure : Failure)
    (c : Cable) : LogEntry :=
  {| log_system_id := None;
     log_system_name := None;
     log_part_id := Some (id c);
     log_part_name := Some (name c);
     log_system_ol := None;
     log_part_ol := Some (operating_level c);
     log_agent := agent;
     log_action_tag := "repair request";
     log_reason := description failure;
     log_additional := upstream_notice;
     log_request_id := f_request_id failure |}.

(** The calls made for one upstream node, and for one upstream cable, in
    a farm with systems [ss], cables [cs] and running process [running]. *)
Definition node_calls (ss : gmap node System) (agent : string)
    (failure : Failure) (n : node) : list effect :=
  match ss !! n with
  | Some s => [ESystemInterrupt n; ELog (upstream_node_log agent failure n s)]
  | None => []
  end.

Definition cable_calls (cs : gmap edge Cable)
    (running : option (edge * pkey)) (agent : string) (failure : Failure)
    (e : edge) : list effect :=
  match cs !! e with
  | Some c => interrupts_of running e (processes c) ++
              [ELog (upstream_cable_log agent failure c)]
  | None => []
  end.

(** A system as the first loop leaves it: as it was, its
    [cable_failure] possibly replaced. *)
Definition same_system (s s' : System) : Prop :=
  s' = set_cable_failure s (cable_failure s').

(** A cable as the second loop leaves it. *)
Definition same_cable (c c' : Cable) : Prop :=
  c' = set_downstream_failure c (downstream_failure c').

(** The state [w'] after the first loop has handled the nodes [done],
    begun in [w0]: an event created since [w0] is one whose index is at
    least [length (events w0)]. *)
Definition nodes_stopped (w0 : World M) (agent : string) (failure : Failure)
    (done : list node) (w' : World M) : Prop :=
  cables w' = cables w0 ∧ manager w' = manager w0 ∧ active w' = active w0 ∧
  events w' = events w0 ++ replicate (length done) false ∧
  trace w' = trace w0 ++ flat_map (node_calls (systems w0) agent failure) done ∧
  ∀ n, option_Forall2
         (λ s s', same_system s s' ∧
            if decide (n ∈ done)
            then (length (events w0) ≤ cable_failure s' < length (events w'))%nat
            else cable_failure s' = cable_failure s)
         (systems w0 !! n) (systems w' !! n).

Definition cables_stopped (w0 : World M) (agent : string) (failure : Failure)
    (done : list edge) (w' : World M) : Prop :=
  systems w' = systems w0 ∧ manager w' = manager w0 ∧ active w' = active w0 ∧
  events w' = events w0 ++ replicate (length done) false ∧
  trace w' = trace w0 ++
    flat_map (cable_calls (cables w0) (active w0) agent failure) done ∧
  ∀ e, option_Forall2
         (λ c c', same_cable c c' ∧
            if decide (e ∈ done)
            then (length (events w0) ≤ downstream_failure c'
                  < length (events w'))%nat
            else downstream_failure c' = downstream_failure c)
         (cables w0 !! e) (cables w' !! e).


(** The cable at [self] once a failure of total reduction has struck it
    and its [broken] signal has been replaced. *)
Definition struck (failure : Failure) (ev : event) (c : Cable) : Cable :=
  set_broken
    (set_operating_level c
       (operating_level c * (1 - operation_reduction failure))%Q) ev.

End StateTerms.

(** ** Of what the calls keep, and of the edge traversal *)

Section WorldRelations.
Context {M : Type}.
Variable Rw : World M → World M → Prop.

(** Whatever [c] does, and whether it returns or raises, the state it
    leaves is related by [Rw] to the one it started in. *)
Definition keeps {A} (c : CM M A) : Prop :=
  ∀ w r w', c w = (r, w') → Rw w w'.

End WorldRelations.

Section BlockageTerms.
Context {M : Type}.

(** The event store of [w'] is that of [w] followed by pending events. *)
Definition events_extended (w w' : World M) : Prop :=
  ∃ k, events w' = events w ++ replicate k false.

(** A signal that is pending in [w] has a pending signal in its place in
    [w']. *)
Definition still_pending (w w' : World M) (ev ev' : event) : Prop :=
  triggered w ev = false → triggered w' ev' = false.

(** Every cable and system of [w] is there in [w'], with each of its
    blocked signals still blocked, and [servicing] the same event. *)
Definition stays_blocked (w w' : World M) : Prop :=
  events_extended w w' ∧
  (∀ e c, cables w !! e = Some c →
     ∃ c', cables w' !! e = Some c' ∧
       servicing c' = servicing c ∧
       still_pending w w' (broken c) (broken c') ∧
       still_pending w w' (downstream_failure c) (downstream_failure c')) ∧
  (∀ n s, systems w !! n = Some s →
     ∃ s', systems w' !! n = Some s' ∧
       still_pending w w' (cable_failure s) (cable_failure s')).

End BlockageTerms.

(** A cable with what identifies [c]: everything but its operating
    level, its [downstream_failure] and [broken] signals and its
    topology snapshot. *)
Definition same_identity (c c' : Cable) : Prop :=
  connection_type c' = connection_type c ∧
  start_node c' = start_node c ∧ end_node c' = end_node c ∧
  id c' = id c ∧ system c' = system c ∧ data c' = data c ∧
  name c' = name c ∧ servicing c' = servicing c ∧
  processes c' = processes c.

(** The farm of [w'] is that of [w]: the same clock, horizon, graph and
    running process, and the same cables and systems, a system changed
    in its [cable_failure] at most. *)
Definition same_farm {M} (w w' : World M) : Prop :=
  now w' = now w ∧ max_run_time w' = max_run_time w ∧
  graph w' = graph w ∧ active w' = active w ∧
  (∀ e, option_Forall2 same_identity (cables w !! e) (cables w' !! e)) ∧
  (∀ n, option_Forall2 same_system (systems w !! n) (systems w' !! n)).


Section EdgeSearchTerms.
Variable G : DiGraph.

(** The state of the edge traversal from [source]: the source is
    visited or waits on the stack; what is on the stack or visited is
    reachable; an iterator holds edges of the graph that leave its node;
    a visited node has an iterator, is on the stack while the iterator
    has edges left, and each of its edges is yielded or still in the
    iterator; and the target of a yielded edge is visited or on the
    stack. *)
Definition edge_search_inv (source : node) (s : edge_dfs_state) : Prop :=
  (source ∈ visited_nodes s ∨ source ∈ stack s) ∧
  (∀ n, n ∈ stack s ∨ n ∈ visited_nodes s → rtc (has_edge G) source n) ∧
  (∀ k it e, dict_get (edges s) k = Some it → e ∈ it →
     e.1 = k ∧ has_edge G k e.2) ∧
  (∀ k, k ∈ visited_nodes s →
     ∃ it, dict_get (edges s) k = Some it ∧
       (it ≠ [] → k ∈ stack s) ∧
       ∀ b, has_edge G k b → (k, b) ∈ visited_edges s ∨ (k, b) ∈ it) ∧
  (∀ e, e ∈ visited_edges s → e.2 ∈ visited_nodes s ∨ e.2 ∈ stack s).

End EdgeSearchTerms.


Definition B : edge := ("T1", "T2").


(** * Properties *)

Lemma Qlt_bool_iff (x y : Q) : Qlt_bool x y = true ↔ (x < y)%Q.
Proof.
  unfold Qlt_bool. rewrite negb_true_iff.
  destruct (Qle_bool y x) eqn:E.
  - apply Qle_bool_iff in E. split; [discriminate | intros; lra].
  - split; [intros _ | reflexivity].
    destruct (Qlt_le_dec x y) as [|Hle]; [assumption |].
    apply Qle_bool_iff in Hle. congruence.
Qed.

Lemma Qlt_bool_false (x y : Q) : Qlt_bool x y = false ↔ (y <= x)%Q.
Proof.
  destruct (Qlt_bool x y) eqn:E.
  - apply Qlt_bool_iff in E. split; [discriminate | intros; lra].
  - split; [intros _ | reflexivity].
    destruct (Qlt_le_dec x y) as [Hlt|]; [| assumption].
    apply Qlt_bool_iff in Hlt. congruence.
Qed.

(** ** The depth-first traversals *)

Section Traversal.
Variable G : DiGraph.

Lemma unvisited_weight_mono g visited x :
  (unvisited_weight (x :: visited) g ≤ unvisited_weight visited g)%nat.
Proof.
  unfold unvisited_weight.
  induction g as [|[k vs] g IH]; simpl; [lia |].
  repeat case_bool_decide; first [lia | exfalso; set_solver].
Qed.

Lemma unvisited_weight_visit g visited child cs :
  adj g child = Some cs → child ∉ visited →
  (unvisited_weight (child :: visited) g + S (length cs)
   ≤ unvisited_weight visited g)%nat.
Proof.
  intros Hadj Hnew. induction g as [|[k vs] g IH]; simpl in *; [discriminate |].
  unfold unvisited_weight in *. simpl.
  destruct (decide (k = child)) as [-> | Hne].
  - injection Hadj as ->.
    rewrite bool_decide_true by set_solver.
    rewrite bool_decide_false by exact Hnew.
    pose proof (unvisited_weight_mono g visited child) as Hm.
    unfold unvisited_weight in Hm. lia.
  - specialize (IH Hadj).
    repeat case_bool_decide; first [lia | exfalso; set_solver].
Qed.

(** The search ends within any budget above the weight of what is not
    yet visited and of the stack. *)
Lemma dfs_loop_total fuel visited stack :
  closed_graph G → stack_in_graph G stack →
  (unvisited_weight visited G + stack_weight stack < fuel)%nat →
  ∃ es, dfs_loop fuel G visited stack = Done es.
Proof.
  intros Hclosed. revert visited stack.
  induction fuel as [|fuel IH]; intros visited stack Hst Hw; [lia |].
  destruct stack as [|[p [|child children]] stack']; simpl.
  - by eexists.
  - apply IH.
    + intros p' rest v Hin. eapply Hst. by right.
    + unfold stack_weight in *. simpl in *. lia.
  - case_bool_decide as Hvis.
    + apply IH.
      * intros p' rest v [[= -> ->] | Hin]%elem_of_cons Hv.
        -- eapply Hst; [by left | by right].
        -- eapply Hst; [by right | done].
      * unfold stack_weight in *. simpl in *. lia.
    + destruct (Hst p (child :: children) child) as [cs Hcs];
        [by left | by left |].
      rewrite Hcs.
      destruct (IH (child :: visited)
                  ((child, cs) :: (p, children) :: stack')) as [es Hes].
      * intros p' rest v [[= -> ->] | [[= -> ->] | Hin]%elem_of_cons]%elem_of_cons Hv.
        -- apply (Hclosed child v). by exists cs.
        -- eapply Hst; [by left | by right].
        -- eapply Hst; [by right | done].
      * pose proof (unvisited_weight_visit G visited child cs Hcs Hvis).
        unfold stack_weight in *. simpl in *. lia.
      * rewrite Hes. by eexists.
Qed.

Lemma dfs_edges_total source :
  closed_graph G → is_Some (adj G source) →
  ∃ es, dfs_edges G source = Done es.
Proof.
  intros Hclosed [cs Hcs]. unfold dfs_edges. rewrite Hcs.
  apply dfs_loop_total; [done | |].
  - intros p rest v [= -> ->]%list_elem_of_singleton Hv.
    apply (Hclosed source v). by exists cs.
  - pose proof (unvisited_weight_visit G [] source cs Hcs) as Hv.
    unfold stack_weight, graph_weight, unvisited_weight in *. simpl in *.
    assert (source ∉ []) as Hnin by set_solver. specialize (Hv Hnin).
    lia.
Qed.

Lemma dfs_loop_spec source fuel visited stack es :
  dfs_inv G source visited stack →
  dfs_loop fuel G visited stack = Done es →
  NoDup (map snd es) ∧
  (∀ v, v ∈ map snd es → (v ∉ visited) ∧ rtc (has_edge G) source v) ∧
  (∀ v, rtc (has_edge G) source v → v ∈ visited ∨ v ∈ map snd es).
Proof.
  revert visited stack es.
  induction fuel as [|fuel IH]; intros visited stack es Hinv Hrun;
    [discriminate |].
  destruct Hinv as (Hsrc & Hreach & Hframes & Hclosed).
  destruct stack as [|[p [|child children]] stack']; simpl in Hrun.
  - injection Hrun as <-. simpl. split; [constructor |].
    split; [intros v Hv; by apply elem_of_nil in Hv |].
    intros v Hv. left. revert v Hv.
    apply (rtc_ind_r (λ v, v ∈ visited)); [exact Hsrc |].
    intros a b _ Hab IHv.
    destruct (Hclosed a b IHv Hab) as [Hb | (rest & Hin & _)]; [exact Hb |].
    by apply elem_of_nil in Hin.
  - apply (IH visited stack' es); [| exact Hrun].
    split; [exact Hsrc |]. split; [exact Hreach |]. split.
    + intros p' rest Hin. apply Hframes. by right.
    + intros v u Hv Hvu.
      destruct (Hclosed v u Hv Hvu) as [Hu | (rest & Hin & Hu)]; [by left |].
      apply elem_of_cons in Hin as [[= -> ->] | Hin].
      * by apply elem_of_nil in Hu.
      * right. by exists rest.
  - destruct (Hframes p (child :: children)) as [Hp Hsucc]; [by left |].
    case_bool_decide as Hvis.
    + apply (IH visited ((p, children) :: stack') es); [| exact Hrun].
      split; [exact Hsrc |]. split; [exact Hreach |]. split.
      * intros p' rest [[= -> ->] | Hin]%elem_of_cons.
        -- split; [exact Hp |]. intros v Hv. apply Hsucc. by right.
        -- apply Hframes. by right.
      * intros v u Hv Hvu.
        destruct (Hclosed v u Hv Hvu) as [Hu | (rest & Hin & Hu)];
          [by left |].
        apply elem_of_cons in Hin as [[= -> ->] | Hin].
        -- apply elem_of_cons in Hu as [-> | Hu]; [by left |].
           right. exists children. split; [by left | exact Hu].
        -- right. exists rest. split; [by right | exact Hu].
    + destruct (adj G child) as [cs|] eqn:Hcs; [| discriminate].
      destruct (dfs_loop fuel G (child :: visited)
                  ((child, cs) :: (p, children) :: stack')) as [es'| |] eqn:E;
        try discriminate.
      injection Hrun as <-.
      assert (Hchild : rtc (has_edge G) source child).
      { eapply rtc_r; [apply Hreach, Hp | apply Hsucc; by left]. }
      destruct (IH (child :: visited)
                  ((child, cs) :: (p, children) :: stack') es')
        as (Hnd & Hnew & Hall); [| exact E |].
      { split; [by right |]. split.
        { intros v [-> | Hv]%elem_of_cons; [exact Hchild | by apply Hreach]. }
        split.
        - intros p' rest [[= -> ->] | [[= -> ->] | Hin]%elem_of_cons]%elem_of_cons.
          + split; [by left |]. intros v Hv. by exists cs.
          + split; [by right |]. intros v Hv. apply Hsucc. by right.
          + destruct (Hframes p' rest) as [Hp' Hs']; [by right |].
            split; [by right | exact Hs'].
        - intros v u [-> | Hv]%elem_of_cons Hvu.
          + right. exists cs. split; [by left |].
            destruct Hvu as (vs & Hvs & Hu). congruence.
          + destruct (Hclosed v u Hv Hvu) as [Hu | (rest & Hin & Hu)];
              [left; by right |].
            apply elem_of_cons in Hin as [[= -> ->] | Hin].
            * apply elem_of_cons in Hu as [-> | Hu]; [left; by left |].
              right. exists children. split; [right; by left | exact Hu].
            * right. exists rest. split; [right; by right | exact Hu]. }
      simpl. split.
      { constructor; [| exact Hnd]. intros Hin.
        destruct (Hnew child Hin) as [Hnot _]. apply Hnot. by left. }
      split.
      * intros v [-> | Hv]%elem_of_cons; [by split |].
        destruct (Hnew v Hv) as [Hnot Hr]. split; [| exact Hr].
        intros Hin. apply Hnot. by right.
      * intros v Hv. destruct (Hall v Hv) as [[-> | Hin]%elem_of_cons | Hin].
        -- right. by left.
        -- by left.
        -- right. by right.
Qed.

(** The nodes of the depth-first search from [source], in the order of
    their discovery, are the nodes reachable from it, each once. *)
Lemma dfs_edges_spec source es :
  dfs_edges G source = Done es →
  NoDup (source :: map snd es) ∧
  ∀ v, v ∈ source :: map snd es ↔ rtc (has_edge G) source v.
Proof.
  unfold dfs_edges. destruct (adj G source) as [cs|] eqn:Hcs; [| discriminate].
  intros Hrun.
  assert (Hinv : dfs_inv G source [source] [(source, cs)]).
  { split; [by left |]. split.
    { intros v ->%list_elem_of_singleton. reflexivity. }
    split.
    - intros p rest [= -> ->]%list_elem_of_singleton.
      split; [by left |]. intros v Hv. by exists cs.
    - intros v u ->%list_elem_of_singleton Hvu. right. exists cs.
      split; [by left |]. destruct Hvu as (vs & Hvs & Hu). congruence. }
  destruct (dfs_loop_spec source _ _ _ _ Hinv Hrun) as (Hnd & Hnew & Hall).
  split.
  - constructor; [| exact Hnd]. intros Hin.
    destruct (Hnew source Hin) as [Hnot _]. apply Hnot. by left.
  - intros v. split.
    + intros [-> | Hv]%elem_of_cons; [reflexivity | by apply Hnew].
    + intros Hv. destruct (Hall v Hv) as [->%list_elem_of_singleton | Hin];
        [by left | by right].
Qed.

(** *** [dfs_successors]: the edges grouped by their source *)

Lemma dict_append_values d s t :
  concat (map snd (dict_append d s t)) ≡ₚ concat (map snd d) ++ [t].
Proof.
  induction d as [|[k vs] d IH]; simpl; [reflexivity |].
  case_decide; simpl.
  - rewrite <- !app_assoc. apply Permutation_app_head, Permutation_app_comm.
  - rewrite IH, app_assoc. reflexivity.
Qed.

Lemma group_edges_values es :
  concat (map snd (group_edges es)) ≡ₚ map snd es.
Proof.
  unfold group_edges.
  assert (Hgen : ∀ d, concat (map snd
                   (foldl (λ d e, dict_append d e.1 e.2) d es))
                 ≡ₚ concat (map snd d) ++ map snd es).
  { induction es as [|[a b] es IH]; intros d; simpl.
    - by rewrite app_nil_r.
    - rewrite IH, dict_append_values, <- app_assoc. reflexivity. }
  apply (Hgen []).
Qed.

Lemma dict_append_new d s t :
  s ∉ map fst d → dict_append d s t = d ++ [(s, [t])].
Proof.
  induction d as [|[k vs] d IH]; simpl; [reflexivity |].
  intros Hnew. simpl in Hnew.
  rewrite decide_False by (intros ->; apply Hnew; by left).
  rewrite IH by (intros Hin; apply Hnew; by right). reflexivity.
Qed.

(** When no node is the source of two edges, every group is a single
    edge and the groups are in the order of the edges. *)
Lemma group_edges_single es :
  NoDup (map fst es) →
  concat (map snd (group_edges es)) = map snd es.
Proof.
  unfold group_edges.
  assert (Hgen : ∀ d, NoDup (map fst d ++ map fst es) →
            foldl (λ d e, dict_append d e.1 e.2) d es =
            d ++ map (λ e, (e.1, [e.2])) es).
  { induction es as [|[a b] es IH]; intros d Hnd; simpl.
    - by rewrite app_nil_r.
    - simpl in Hnd. apply NoDup_app in Hnd as (Hd & Hdis & Hes).
      apply NoDup_cons in Hes as [Ha Hes].
      rewrite dict_append_new by (intros Hin; apply (Hdis a Hin); by left).
      rewrite IH.
      + rewrite <- app_assoc. reflexivity.
      + rewrite map_app. simpl. rewrite <- app_assoc. simpl.
        apply NoDup_app. split; [exact Hd |]. split.
        * intros x Hx [-> | Hin]%elem_of_cons.
          -- apply (Hdis a Hx). by left.
          -- apply (Hdis x Hx). by right.
        * by apply NoDup_cons. }
  intros Hnd. rewrite (Hgen []) by exact Hnd. simpl. clear Hgen Hnd.
  induction es as [|[a b] es IH]; simpl; [reflexivity |].
  by rewrite IH.
Qed.

Lemma chain_upstream_values end_node upstream :
  chain_upstream end_node upstream = end_node :: concat (map snd upstream).
Proof.
  unfold chain_upstream. case_bool_decide as Hlen; [reflexivity |].
  destruct upstream; [reflexivity | simpl in Hlen; lia].
Qed.

(** *** [edge_dfs] ends *)

Lemma unvisited_edges_mono g visited x :
  (unvisited_edges (x :: visited) g ≤ unvisited_edges visited g)%nat.
Proof.
  unfold unvisited_edges.
  induction g as [|[k vs] g IH]; simpl; [lia |].
  repeat case_bool_decide; first [lia | exfalso; set_solver].
Qed.

Lemma unvisited_edges_visit g visited n vs :
  adj g n = Some vs → n ∉ visited →
  (unvisited_edges (n :: visited) g + length vs
   ≤ unvisited_edges visited g)%nat.
Proof.
  intros Hadj Hnew. induction g as [|[k ws] g IH]; simpl in *; [discriminate |].
  unfold unvisited_edges in *. simpl.
  destruct (decide (k = n)) as [-> | Hne].
  - injection Hadj as ->.
    rewrite bool_decide_true by set_solver.
    rewrite bool_decide_false by exact Hnew.
    pose proof (unvisited_edges_mono g visited n) as Hm.
    unfold unvisited_edges in Hm. lia.
  - specialize (IH Hadj).
    repeat case_bool_decide; first [lia | exfalso; set_solver].
Qed.

Lemma dict_get_set {V} (d : list (node * V)) k k' v :
  dict_get (dict_set d k v) k' =
  if decide (k = k') then Some v else dict_get d k'.
Proof.
  induction d as [|[a b] d IH]; simpl.
  - repeat case_decide; congruence.
  - repeat (case_decide; simpl); congruence.
Qed.

Lemma dict_weight_set_new d k it :
  dict_get d k = None →
  dict_weight (dict_set d k it) = (dict_weight d + length it)%nat.
Proof.
  unfold dict_weight. induction d as [|[a b] d IH]; simpl; [lia |].
  case_decide; [discriminate |]. intros Hk. simpl. rewrite IH by done. lia.
Qed.

Lemma dict_weight_set_old d k old it :
  dict_get d k = Some old →
  (dict_weight (dict_set d k it) + length old)%nat =
  (dict_weight d + length it)%nat.
Proof.
  unfold dict_weight. induction d as [|[a b] d IH]; simpl; [discriminate |].
  case_decide; simpl.
  - intros [= ->]. lia.
  - intros Hk. specialize (IH Hk). lia.
Qed.

Lemma edge_dfs_enter_spec s current_node stack' :
  closed_graph G → edge_dfs_inv G s → stack s = current_node :: stack' →
  ∃ s1, edge_dfs_enter G s current_node = Some s1 ∧
        stack s1 = stack s ∧ edge_dfs_inv G s1 ∧
        (edge_dfs_weight G s1 ≤ edge_dfs_weight G s)%nat ∧
        current_node ∈ visited_nodes s1.
Proof.
  intros Hclosed (Hst & Hit & Hkeys) Hstack. unfold edge_dfs_enter.
  case_bool_decide as Hvis.
  - exists s. repeat split; try done.
  - destruct (Hst current_node) as [vs Hvs]; [rewrite Hstack; by left |].
    unfold edges_from. rewrite Hvs. simpl. eexists. split; [reflexivity |].
    assert (Hnone : dict_get (edges s) current_node = None).
    { destruct (dict_get (edges s) current_node) eqn:E; [| done].
      exfalso. apply Hvis, Hkeys. by eexists. }
    split; [reflexivity |]. split; [| split].
    + split; [exact Hst |]. split; simpl.
      * intros k it e. rewrite dict_get_set. case_decide.
        -- intros [= <-] (v & -> & Hv)%list_elem_of_fmap. simpl.
           apply (Hclosed current_node v). by exists vs.
        -- apply Hit.
      * intros k. rewrite dict_get_set. case_decide; [subst; by left |].
        intros Hk. right. by apply Hkeys.
    + unfold edge_dfs_weight. simpl.
      rewrite dict_weight_set_new by exact Hnone. rewrite length_map.
      pose proof (unvisited_edges_visit G (visited_nodes s) current_node vs
                    Hvs Hvis). lia.
    + simpl. by left.
Qed.

Lemma edge_dfs_loop_total fuel s :
  closed_graph G → edge_dfs_inv G s →
  (edge_dfs_weight G s < fuel)%nat →
  ∃ es, edge_dfs_loop fuel G s = Done es.
Proof.
  intros Hclosed. revert s.
  induction fuel as [|fuel IH]; intros s Hinv Hw; [lia |].
  simpl. destruct (stack s) as [|current_node stack'] eqn:Hstack;
    [by eexists |].
  destruct (edge_dfs_enter_spec s current_node stack' Hclosed Hinv Hstack)
    as (s1 & -> & Hstack1 & (Hst & Hit & Hkeys) & Hw1 & Hcur).
  rewrite Hstack in Hstack1.
  assert (Hpop : ∃ es, edge_dfs_loop fuel G
            {| visited_edges := visited_edges s1;
               visited_nodes := visited_nodes s1;
               edges := edges s1; stack := stack' |} = Done es).
  { apply IH.
    - split; [| by split]. simpl. intros n Hn. apply Hst.
      rewrite Hstack1. by right.
    - unfold edge_dfs_weight in *. simpl.
      rewrite Hstack1, Hstack in *. simpl in *. lia. }
  destruct (dict_get (edges s1) current_node) as [[|e rest]|] eqn:Hget;
    try exact Hpop.
  pose proof (dict_weight_set_old (edges s1) current_node (e :: rest) rest Hget)
    as Hdw. simpl in Hdw.
  assert (Hit' : ∀ k it e0,
            dict_get (dict_set (edges s1) current_node rest) k = Some it →
            e0 ∈ it → is_Some (adj G e0.2)).
  { intros k it e0. rewrite dict_get_set. case_decide.
    - intros [= <-] He0. apply (Hit current_node (e :: rest)); [done |].
      by right.
    - apply Hit. }
  assert (Hkeys' : ∀ k,
            is_Some (dict_get (dict_set (edges s1) current_node rest) k) →
            k ∈ visited_nodes s1).
  { intros k. rewrite dict_get_set. case_decide; [by subst |]. apply Hkeys. }
  case_bool_decide as Hseen.
  - apply IH.
    + split; [exact Hst |]. by split.
    + unfold edge_dfs_weight in *. simpl.
      rewrite Hstack1, Hstack in *. simpl in *. lia.
  - destruct (IH {| visited_edges := e :: visited_edges s1;
                    visited_nodes := visited_nodes s1;
                    edges := dict_set (edges s1) current_node rest;
                    stack := e.2 :: stack s1 |}) as [es Hes].
    + split; [| by split]. simpl.
      intros n [-> | Hn]%elem_of_cons; [| by apply Hst].
      apply (Hit current_node (e :: rest)); [done | by left].
    + unfold edge_dfs_weight in *. simpl.
      rewrite Hstack1, Hstack in *. simpl in *. lia.
    + rewrite Hes. by eexists.
Qed.

Lemma edge_dfs_total source :
  closed_graph G → is_Some (adj G source) →
  ∃ es, edge_dfs G source = Done es.
Proof.
  intros Hclosed Hsrc. unfold edge_dfs. apply edge_dfs_loop_total.
  - exact Hclosed.
  - split; simpl.
    + by intros n ->%list_elem_of_singleton.
    + split; [discriminate |]. by intros k [? [=]].
  - unfold edge_dfs_weight, dict_weight, edge_weight, unvisited_edges. simpl.
    lia.
Qed.

End Traversal.

(** ** The timers *)

Section TimerFacts.
Context {M : Type} `{RepairManager M}.
Implicit Types (w : World M) (l : locals) (c : Cable).

(** The outer loop of the failure timer overwrites [hours_to_next] with
    the draw before reading it. *)
Lemma failure_loop_forgets_hours fuel self failure l w h :
  failure_loop fuel self failure (set_hours_to_next l h) w =
  failure_loop fuel self failure l w.
Proof. destruct fuel; reflexivity. Qed.

Lemma maintenance_loop_forgets_hours fuel self m l w h :
  maintenance_loop fuel self m (set_hours_to_next l h) w =
  maintenance_loop fuel self m l w.
Proof. destruct fuel; reflexivity. Qed.


(** C4, as the code has it.  A draw of the hazard function that is a
    number not above zero raises nothing: the inner loop is skipped and
    the outer loop goes on to the next draw, with the state, and so the
    clock, as they were.  When every draw is such a number the timer
    never raises and never pauses, whatever the budget of iterations. *)
Theorem failure_nonpositive_draw self failure l w :
  (∀ fuel h, hours_to_next_failure failure (draws l) = Some h → (h <= 0)%Q →
     failure_loop (S fuel) self failure l w =
     failure_loop fuel self failure (next_draw l (Some h)) w)
  ∧
  ((∀ n, ∃ h, hours_to_next_failure failure n = Some h ∧ (h <= 0)%Q) →
     ∀ fuel, failure_loop fuel self failure l w = Spinning w).
Proof.
  assert (Hstep : ∀ l fuel h,
            hours_to_next_failure failure (draws l) = Some h → (h <= 0)%Q →
            failure_loop (S fuel) self failure l w =
            failure_loop fuel self failure (next_draw l (Some h)) w).
  { intros l0 fuel h Hd Hle. simpl. rewrite Hd. simpl.
    unfold failure_tail, while_hours. simpl.
    apply Qlt_bool_false in Hle. rewrite Hle. reflexivity. }
  split; [apply Hstep |].
  intros Hall fuel. revert l.
  induction fuel as [|fuel IH]; intros l; [reflexivity |].
  destruct (Hall (draws l)) as (h & Hd & Hle).
  rewrite (Hstep l fuel h Hd Hle). apply IH.
Qed.

Lemma maintenance_zero_starts fuel self m w :
  (frequency m == 0)%Q → (now w <= max_run_time w)%Q →
  waits_for_horizon m w (start_single_maintenance (S fuel) self m w)
    (max_run_time w - now w).
Proof.
  intros Hf Hn. unfold start_single_maintenance. simpl.
  apply Qeq_bool_iff in Hf. rewrite Hf. unfold env_timeout.
  assert (Hr : Qlt_bool (max_run_time w - now w) 0 = false)
    by (apply Qlt_bool_false; lra).
  rewrite Hr. eexists _, _. split; [reflexivity |].
  simpl. repeat split; try reflexivity; lra.
Qed.

Lemma maintenance_zero_resumes fuel me self m w0 o d :
  (frequency m == 0)%Q →
  waits_for_horizon m w0 o d →
  ∃ p l w w1 d', o = Suspended p (Timeout d) l w ∧
    advance me (Timeout d) w = Some w1 ∧
    waits_for_horizon m w0
      (run_single_maintenance (S fuel) self m p Resume l w1) d'
    ∧ (d' == 0)%Q.
Proof.
  intros Hf (l & w & -> & Hh & Ht & Hm & Hmax & Hnow & Hd).
  eexists AtHorizon, l, w, _, (max_run_time w - (now w + d))%Q.
  split; [reflexivity |]. split; [reflexivity |].
  split; [| rewrite Hmax; lra].
  unfold run_single_maintenance, while_hours. rewrite Hh.
  assert (Hz : Qlt_bool 0 (frequency m) = false)
    by (apply Qlt_bool_false; lra).
  rewrite Hz. simpl.
  pose proof Hf as Hf'. apply Qeq_bool_iff in Hf'. rewrite Hf'.
  unfold env_timeout. simpl.
  assert (Hr : Qlt_bool (max_run_time w - (now w + d)) 0 = false)
    by (apply Qlt_bool_false; rewrite Hmax; lra).
  rewrite Hr. eexists _, _. split; [reflexivity |].
  simpl. repeat split; try assumption; rewrite ?Hmax; lra.
Qed.

Lemma maintenance_zero_runs n fuel me self m w0 o d :
  (frequency m == 0)%Q →
  waits_for_horizon m w0 o d →
  ∃ d', waits_for_horizon m w0
          (uninterrupted n me (run_single_maintenance (S fuel) self m) o) d'
        ∧ (n ≠ 0%nat → (d' == 0)%Q).
Proof.
  intros Hf. revert o d.
  induction n as [|n IH]; intros o d Hw.
  - exists d. split; [exact Hw | congruence].
  - destruct (maintenance_zero_resumes fuel me self m w0 o d Hf Hw)
      as (p & l & w & w1 & d' & -> & Ha & Hw' & Hd').
    cbn [uninterrupted]. rewrite Ha.
    destruct (IH _ _ Hw') as (d2 & Hw2 & Hd2).
    destruct n as [|n'].
    + exists d'. split; [exact Hw' | intros _; exact Hd'].
    + exists d2. split; [exact Hw2 | intros _; apply Hd2; congruence].
Qed.

(** C5, as the code has it.  A maintenance timer of frequency zero that
    is never interrupted registers and submits no request: after any
    number of resumptions it is paused for the rest of the horizon, the
    repair manager and the calls made are as they were at its start,
    and from its first resumption on (at the end of the horizon) the
    delay it waits for is zero. *)
Theorem maintenance_frequency_zero_no_request n fuel me self m w :
  (frequency m == 0)%Q → (now w <= max_run_time w)%Q →
  ∃ d l w',
    uninterrupted n me (run_single_maintenance (S fuel) self m)
      (start_single_maintenance (S fuel) self m w) =
    Suspended AtHorizon (Timeout d) l w' ∧
    trace w' = trace w ∧ manager w' = manager w ∧
    (now w' + d == max_run_time w)%Q ∧
    (n ≠ 0%nat → (d == 0)%Q ∧ (now w' == max_run_time w)%Q).
Proof.
  intros Hf Hn.
  destruct (maintenance_zero_runs n fuel me self m w _ _ Hf
              (maintenance_zero_starts fuel self m w Hf Hn))
    as (d & (l & w' & Ho & _ & Ht & Hm & _ & Hnow & _) & Hd).
  exists d, l, w'. split; [exact Ho |]. split; [exact Ht |].
  split; [exact Hm |]. split; [exact Hnow |].
  intros Hn0. specialize (Hd Hn0). split; [exact Hd | lra].
Qed.

(** C8.  A failure timer whose first draw is [None] pauses in its
    horizon wait; interrupted there, in whatever state, it ends with an
    AssertionError: the interrupt is caught, but the [assert] that
    follows fails. *)
Theorem failure_horizon_interrupt_raises fuel fuel' self failure w :
  hours_to_next_failure failure 0 = None →
  (now w <= max_run_time w)%Q →
  ∃ l, start_single_failure (S fuel) self failure w =
         Suspended AtHorizon (Timeout (max_run_time w - now w)) l w ∧
       ∀ w2, run_single_failure fuel' self failure AtHorizon Interrupt l w2 =
             Raised AssertionError w2.
Proof.
  intros Hd Hnow. unfold start_single_failure. simpl. rewrite Hd. simpl.
  unfold env_timeout.
  assert (Hr : Qlt_bool (max_run_time w - now w) 0 = false)
    by (apply Qlt_bool_false; lra).
  rewrite Hr. eexists. split; [reflexivity |].
  intros w2. reflexivity.
Qed.

(** The maintenance timer handles the same interrupt. *)
Lemma maintenance_horizon_interrupt_handled fuel self m l w r :
  hours_to_next l = Some (frequency m) → (frequency m == 0)%Q →
  remainder l = Some r →
  run_single_maintenance fuel self m AtHorizon Interrupt l w =
  maintenance_loop fuel self m (set_remainder l (r - now w)) w.
Proof.
  intros Hh Hf Hr. unfold run_single_maintenance, on_horizon_interrupt.
  rewrite Hr. unfold while_hours. simpl. rewrite Hh.
  assert (Hz : Qlt_bool 0 (frequency m) = false)
    by (apply Qlt_bool_false; lra).
  rewrite Hz. reflexivity.
Qed.

End TimerFacts.

(** ** What the steps of the core keep *)

Section Preservation.
Context {M : Type} `{RepairManager M}.
Variable R : Cable → Cable → Prop.
Context `{!PreOrder R}.
Hypothesis R_downstream_failure : ∀ c e, R c (set_downstream_failure c e).
Hypothesis R_broken : ∀ c e, R c (set_broken c e).
Variable P : Failure → Prop.
Hypothesis R_level : ∀ failure c, P failure →
  R c (set_operating_level c
         (operating_level c * (1 - operation_reduction failure))%Q).
Implicit Types w : World M.

Global Instance cables_rel_preorder : PreOrder (cables_rel (M:=M) R).
Proof.
  split.
  - intros w e. destruct (cables w !! e); constructor. reflexivity.
  - intros w1 w2 w3 H12 H23 e. specialize (H12 e). specialize (H23 e).
    destruct H12; inversion H23; subst; constructor. etrans; eauto.
Qed.

Lemma cables_rel_same w w' : cables w' = cables w → cables_rel (M:=M) R w w'.
Proof.
  intros E e. rewrite E. destruct (cables w !! e); constructor. reflexivity.
Qed.

Lemma preserves_bind {A B} (c : CM M A) (k : A → CM M B) :
  preserves (M:=M) R c → (∀ a, preserves (M:=M) R (k a)) → preserves (M:=M) R (bind c k).
Proof.
  intros Hc Hk w r w'. unfold bind.
  destruct (c w) as [[e|a] w1] eqn:E; intros Hr.
  - inversion Hr; subst. eauto.
  - etrans; [eapply Hc | eapply Hk]; eauto.
Qed.

Lemma preserves_same {A} (c : CM M A) :
  (∀ w, cables (c w).2 = cables w) → preserves (M:=M) R c.
Proof.
  intros Hc w r w' E. apply cables_rel_same.
  specialize (Hc w). rewrite E in Hc. exact Hc.
Qed.

Lemma preserves_for_each {A} (l : list A) (body : A → CM M unit) :
  (∀ x, preserves (M:=M) R (body x)) → preserves (M:=M) R (for_each l body).
Proof.
  intros Hb. induction l as [|x l IH]; simpl.
  - by apply preserves_same.
  - apply preserves_bind; auto.
Qed.

Lemma preserves_update_cable e f :
  (∀ c, R c (f c)) → preserves (M:=M) R (update_cable e f).
Proof.
  intros Hf w r w' [= <- <-] e'. simpl. rewrite lookup_alter.
  case_decide; subst; destruct (cables w !! e'); simpl; constructor;
    auto; reflexivity.
Qed.

Lemma preserves_except (c : CM M unit) :
  preserves (M:=M) R c → preserves (M:=M) R (except_RuntimeError c).
Proof.
  intros Hc w r w'. unfold except_RuntimeError.
  destruct (c w) as [[[]|[]] w1] eqn:E; intros [= <- <-]; eauto.
Qed.

Ltac pres :=
  repeat first
    [ apply preserves_bind; [| intros ?]
    | apply preserves_for_each; intros ?
    | apply preserves_except
    | apply preserves_update_cable; solve [auto]
    | apply preserves_same; intros ?; reflexivity
    | match goal with
      | |- preserves (M:=M) R (if ?b then _ else _) => destruct b
      | |- preserves (M:=M) R (match ?o with Some _ => _ | None => _ end) => destruct o
      end ].

Lemma preserves_process_interrupt t : preserves (M:=M) R (process_interrupt t).
Proof.
  apply preserves_same. intros w. unfold process_interrupt.
  case_bool_decide; reflexivity.
Qed.

Lemma preserves_windfarm_cable e : preserves (M:=M) R (windfarm_cable e).
Proof.
  apply preserves_same. intros w. unfold windfarm_cable.
  destruct (cables w !! e); reflexivity.
Qed.

Lemma preserves_windfarm_system n : preserves (M:=M) R (windfarm_system n).
Proof.
  apply preserves_same. intros w. unfold windfarm_system.
  destruct (systems w !! n); reflexivity.
Qed.

Lemma preserves_get_request_id r : preserves (M:=M) R (get_request_id r).
Proof.
  apply preserves_same. intros w. unfold get_request_id.
  destruct (request_id r); reflexivity.
Qed.

Hint Resolve preserves_process_interrupt preserves_windfarm_cable
  preserves_windfarm_system preserves_get_request_id : core.

Lemma preserves_interrupt_processes self :
  preserves (M:=M) R (interrupt_processes self).
Proof. unfold interrupt_processes. pres; auto. Qed.

Lemma preserves_stop_all_upstream_processes self failure :
  preserves (M:=M) R (stop_all_upstream_processes self failure).
Proof.
  unfold stop_all_upstream_processes, stop_upstream_node, stop_upstream_cable, log_action.
  pres; auto using preserves_interrupt_processes.
Qed.

Lemma preserves_failure_occurs self failure :
  P failure → preserves (M:=M) R (failure_occurs self failure).
Proof.
  intros HP. unfold failure_occurs, log_action.
  apply preserves_bind.
  { apply preserves_update_cable. intros c. by apply R_level. }
  intros _.
  pres; auto using preserves_interrupt_processes,
    preserves_stop_all_upstream_processes.
Qed.

Lemma preserves_maintenance_due self m : preserves (M:=M) R (maintenance_due self m).
Proof. unfold maintenance_due, log_action. pres; auto. Qed.

Lemma failure_loop_world fuel self failure l (w : World M) :
  outcome_world (failure_loop fuel self failure l w) = w.
Proof.
  revert l. induction fuel as [|fuel IH]; intros l; simpl; [reflexivity |].
  destruct (hours_to_next_failure failure (draws l)); simpl.
  - unfold failure_tail, while_hours, gate. simpl.
    destruct (Qlt_bool 0 q); [destruct (cables w !! self); reflexivity |].
    apply IH.
  - unfold env_timeout. destruct (Qlt_bool _ _); reflexivity.
Qed.

Lemma maintenance_loop_world fuel self m l (w : World M) :
  outcome_world (maintenance_loop fuel self m l w) = w.
Proof.
  revert l. induction fuel as [|fuel IH]; intros l; simpl; [reflexivity |].
  destruct (Qeq_bool (frequency m) 0).
  - unfold env_timeout. destruct (Qlt_bool _ _); reflexivity.
  - unfold while_hours, gate. simpl.
    destruct (Qlt_bool 0 (frequency m));
      [destruct (cables w !! self); reflexivity | apply IH].
Qed.

Lemma while_hours_world k self l (w : World M) :
  (∀ l', outcome_world (k l' w) = w) →
  outcome_world (while_hours k self l w) = w.
Proof.
  intros Hk. unfold while_hours, gate.
  destruct (hours_to_next l); [| reflexivity].
  destruct (Qlt_bool 0 q); [destruct (cables w !! self); reflexivity |].
  apply Hk.
Qed.

Lemma env_timeout_world p d l (w : World M) :
  outcome_world (env_timeout p d l w) = w.
Proof. unfold env_timeout. destruct (Qlt_bool d 0); reflexivity. Qed.

(** A run of the failure timer leaves the state as it was, except for
    what the failure does when a countdown is over. *)
Lemma run_single_failure_world fuel self failure p sig l (w : World M) :
  outcome_world (run_single_failure fuel self failure p sig l w) = w ∨
  (p = AtCountdown ∧ sig = Resume ∧
   outcome_world (run_single_failure fuel self failure p sig l w) =
   (failure_occurs self failure w).2).
Proof.
  pose proof (failure_loop_world fuel self failure) as Hloop.
  destruct p, sig; simpl.
  - left. unfold failure_tail. destruct (hours_to_next l); [| reflexivity].
    apply while_hours_world. intros; apply Hloop.
  - left. destruct (on_horizon_interrupt l w); [reflexivity |].
    unfold failure_tail. destruct (hours_to_next l0); [| reflexivity].
    apply while_hours_world. intros; apply Hloop.
  - left. destruct (hours_to_next l); [apply env_timeout_world | reflexivity].
  - left. destruct (on_interrupt self l w); [reflexivity |].
    apply while_hours_world. intros; apply Hloop.
  - right. repeat split.
    destruct (failure_occurs self failure w) as [[e|[]] w']; [reflexivity |].
    apply while_hours_world. intros; apply Hloop.
  - left. destruct (on_interrupt self l w); [reflexivity |].
    apply while_hours_world. intros; apply Hloop.
Qed.

Lemma run_single_maintenance_world fuel self m p sig l (w : World M) :
  outcome_world (run_single_maintenance fuel self m p sig l w) = w ∨
  (p = AtCountdown ∧ sig = Resume ∧
   outcome_world (run_single_maintenance fuel self m p sig l w) =
   (maintenance_due self m w).2).
Proof.
  pose proof (maintenance_loop_world fuel self m) as Hloop.
  destruct p, sig; simpl.
  - left. apply while_hours_world. intros; apply Hloop.
  - left. destruct (on_horizon_interrupt l w); [reflexivity |].
    apply while_hours_world. intros; apply Hloop.
  - left. destruct (hours_to_next l); [apply env_timeout_world | reflexivity].
  - left. destruct (on_interrupt self l w); [reflexivity |].
    apply while_hours_world. intros; apply Hloop.
  - right. repeat split.
    destruct (maintenance_due self m w) as [[e|[]] w']; [reflexivity |].
    apply while_hours_world. intros; apply Hloop.
  - left. destruct (on_interrupt self l w); [reflexivity |].
    apply while_hours_world. intros; apply Hloop.
Qed.

Lemma core_step_cables_rel w w' : core_step P w w' → cables_rel (M:=M) R w w'.
Proof.
  intros [fuel self failure HP | fuel self failure p sig l HP
         | fuel self m | fuel self m p sig l].
  - unfold start_single_failure. rewrite failure_loop_world. reflexivity.
  - destruct (run_single_failure_world fuel self failure p sig l w)
      as [-> | (_ & _ & ->)]; [reflexivity |].
    destruct (failure_occurs self failure w) as [r w1] eqn:E.
    eapply preserves_failure_occurs; eauto.
  - unfold start_single_maintenance. rewrite maintenance_loop_world.
    reflexivity.
  - destruct (run_single_maintenance_world fuel self m p sig l w)
      as [-> | (_ & _ & ->)]; [reflexivity |].
    destruct (maintenance_due self m w) as [r w1] eqn:E.
    eapply preserves_maintenance_due; eauto.
Qed.

Lemma sim_steps_cables_rel w w' : rtc (sim_step P) w w' → cables_rel (M:=M) R w w'.
Proof.
  induction 1 as [|w1 w2 w3 Hs _ IH]; [reflexivity |].
  etrans; [| exact IH].
  destruct Hs as [Hc | He]; [by apply core_step_cables_rel |].
  by apply cables_rel_same.
Qed.

End Preservation.

(** ** Interrupts in the cycle of a timer *)

Section Interrupted.
Context {M : Type} `{RepairManager M}.
Implicit Types (w : World M) (l : locals) (c : Cable).



End Interrupted.

Section Levels.
Context {M : Type} `{RepairManager M}.

Local Instance level_kept_preorder : PreOrder level_kept.
Proof.
  split.
  - intros c Hc. lra.
  - intros c1 c2 c3 H12 H23 Hc. unfold level_kept in *. lra.
Qed.

(** C6.  Along any sequence of steps of the timers, for any cables,
    failures of reduction within [0,1] and maintenance tasks, at any of
    their [yield]s and with either signal: a cable whose operating level
    is within [0,1] (as is the level 1 that construction sets, see
    [Cable_init_returns]) is still there afterwards, its level within
    [0,1] and not above what it was. *)
Theorem operating_level_bounded_nonincreasing (w w' : World M) e c :
  rtc (sim_step valid_reduction) w w' →
  cables w !! e = Some c →
  (0 <= operating_level c <= 1)%Q →
  ∃ c', cables w' !! e = Some c' ∧
        (0 <= operating_level c' <= operating_level c)%Q ∧
        (operating_level c' <= 1)%Q.
Proof.
  intros Hsteps Hc Hl.
  assert (Hrel : cables_rel level_kept w w').
  { eapply (sim_steps_cables_rel level_kept); [..| exact Hsteps].
    - intros c0 ev Hc0. simpl. lra.
    - intros c0 ev Hc0. simpl. lra.
    - intros failure c0 [Hr0 Hr1] Hc0. simpl. nra. }
  specialize (Hrel e). rewrite Hc in Hrel. inversion Hrel as [? c' Hk |]; subst.
  exists c'. split; [reflexivity |]. specialize (Hk Hl). lra.
Qed.

End Levels.

(** ** The cascading shutdown *)

Section Cascade.
Context {M : Type} `{RepairManager M}.
Implicit Types (w : World M).

Lemma returns_for_each {A} (I : list A → World M → Prop) (l : list A)
    (body : A → CM M unit) :
  (∀ done x rest, l = done ++ x :: rest →
     returns (I done) (body x) (λ _, I (done ++ [x]))) →
  returns (I []) (for_each l body) (λ _, I l).
Proof.
  intros Hbody.
  assert (Hgen : ∀ rest done, l = done ++ rest →
            returns (I done) (for_each rest body) (λ _, I l)).
  { induction rest as [|x rest IH]; intros done Hl w Hw; simpl.
    - exists tt, w. rewrite app_nil_r in Hl. subst. by split.
    - destruct (Hbody done x rest Hl w Hw) as ([] & w1 & E1 & Hw1).
      unfold bind. rewrite E1.
      apply (IH (done ++ [x])); [by rewrite <- app_assoc | exact Hw1]. }
  exact (Hgen l [] eq_refl).
Qed.

Lemma with_trace_same w : with_trace w (trace w) = w.
Proof. by destruct w. Qed.

Lemma interrupt_each w e ks :
  for_each ks (λ k, except_RuntimeError (process_interrupt (e, k))) w =
  (inr tt, with_trace w (trace w ++ interrupts_of (active w) e ks)).
Proof.
  revert w. induction ks as [|k ks IH]; intros w; simpl.
  - unfold ret, interrupts_of. simpl. rewrite app_nil_r.
    by rewrite with_trace_same.
  - unfold bind, except_RuntimeError, process_interrupt, interrupts_of.
    rewrite filter_cons.
    case_bool_decide as Hact.
    + rewrite decide_False by (intros Hne; by apply Hne).
      apply IH.
    + rewrite decide_True by exact Hact.
      simpl. rewrite IH. simpl. f_equal.
      unfold interrupts_of. by rewrite <- app_assoc.
Qed.

Lemma interrupt_processes_run w e c :
  cables w !! e = Some c →
  interrupt_processes e w =
  (inr tt, with_trace w (trace w ++ interrupts_of (active w) e (processes c))).
Proof.
  intros Hc. unfold interrupt_processes, bind, windfarm_cable.
  rewrite Hc. apply interrupt_each.
Qed.

Lemma same_system_refl s : same_system s s.
Proof. by destruct s. Qed.

Lemma nodes_stopped_start w agent failure : nodes_stopped w agent failure [] w.
Proof.
  repeat split; simpl; rewrite ?app_nil_r; try reflexivity.
  intros n. destruct (systems w !! n); constructor.
  split; [apply same_system_refl | done].
Qed.

Lemma stop_upstream_node_run w0 self me failure done n :
  cables w0 !! self = Some me →
  is_Some (systems w0 !! n) →
  returns (nodes_stopped w0 (name me) failure done)
    (stop_upstream_node self failure n)
    (λ _, nodes_stopped w0 (name me) failure (done ++ [n])).
Proof.
  intros Hme [s0 Hs0] w (Hc & Hm & Ha & He & Ht & Hs).
  pose proof (Hs n) as Hn. rewrite Hs0 in Hn.
  inversion Hn as [? s [Hsame _] E1 E2 |]; subst. symmetry in E2.
  eexists tt, _. split.
  { unfold stop_upstream_node, bind, windfarm_system, windfarm_cable,
      emit, new_event, update_system, log_action.
    simpl. rewrite E2. simpl. rewrite lookup_alter, decide_True by done.
    rewrite E2. simpl. rewrite Hc, Hme. reflexivity. }
  repeat split; simpl; try assumption.
  - rewrite He, length_app, replicate_add, <- app_assoc. reflexivity.
  - rewrite Ht, flat_map_app, <- !app_assoc. simpl. f_equal.
    unfold node_calls. rewrite Hs0. rewrite app_nil_r. simpl.
    do 4 f_equal.
    unfold upstream_node_log. rewrite Hsame. reflexivity.
  - intros n'. specialize (Hs n').
    destruct (decide (n = n')) as [<- | Hnn].
    + rewrite lookup_alter_eq, E2, Hs0. simpl. constructor. split.
      * unfold same_system, set_cable_failure in *. destruct s, s0; simpl in *.
        injection Hsame as -> -> ->. reflexivity.
      * rewrite decide_True by (apply elem_of_app; right; by left). simpl.
        rewrite He, !length_app, length_replicate. simpl. lia.
    + rewrite lookup_alter_ne by done.
      destruct Hs as [s1 s2 [Hs12 Hfresh] |]; constructor.
      split; [exact Hs12 |].
      destruct (decide (n' ∈ done)) as [Hin | Hnin].
      * rewrite decide_True by (apply elem_of_app; by left).
        rewrite length_app. simpl. lia.
      * rewrite decide_False
          by (intros [? | ?%list_elem_of_singleton]%elem_of_app; congruence).
        exact Hfresh.
Qed.

Lemma same_cable_refl c : same_cable c c.
Proof. by destruct c. Qed.

Lemma same_cable_set c c' ev :
  same_cable c c' → same_cable c (set_downstream_failure c' ev).
Proof.
  unfold same_cable, set_downstream_failure. intros ->. reflexivity.
Qed.

Lemma cables_stopped_start w agent failure :
  cables_stopped w agent failure [] w.
Proof.
  repeat split; simpl; rewrite ?app_nil_r; try reflexivity.
  intros e. destruct (cables w !! e); constructor.
  split; [apply same_cable_refl | done].
Qed.

Lemma stop_upstream_cable_run w0 self me failure done e :
  cables w0 !! self = Some me →
  is_Some (cables w0 !! e) →
  returns (cables_stopped w0 (name me) failure done)
    (stop_upstream_cable self failure e)
    (λ _, cables_stopped w0 (name me) failure (done ++ [e])).
Proof.
  intros Hme [c0 Hc0] w (Hs & Hm & Ha & He & Ht & Hc).
  pose proof (Hc e) as Hce. rewrite Hc0 in Hce.
  inversion Hce as [? c [Hsame _] E1 E2 |]; subst. symmetry in E2.
  pose proof (Hc self) as Hself. rewrite Hme in Hself.
  inversion Hself as [? me' [Hme' _] E3 E4 |]; subst. symmetry in E4.
  assert (Hname : ∃ me2,
            alter (λ c', set_downstream_failure c' (length (events w))) e
              (cables w) !! self = Some me2 ∧ name me2 = name me).
  { destruct (decide (e = self)) as [-> | Hne].
    - rewrite lookup_alter_eq, E4. simpl. eexists; split; [reflexivity |].
      simpl. rewrite Hme'. reflexivity.
    - rewrite lookup_alter_ne by done. exists me'. split; [done |].
      rewrite Hme'. reflexivity. }
  destruct Hname as (me2 & Hme2 & Hname).
  eexists tt, _. split.
  { unfold stop_upstream_cable, bind, windfarm_cable. rewrite E2.
    rewrite (interrupt_processes_run w e c E2).
    unfold new_event, update_cable, log_action, emit. simpl.
    rewrite lookup_alter_eq, E2. simpl. rewrite Hme2. reflexivity. }
  repeat split; simpl; try assumption.
  - rewrite He, length_app, replicate_add, <- app_assoc. reflexivity.
  - rewrite Ht, flat_map_app, <- !app_assoc. simpl. f_equal.
    f_equal. unfold cable_calls. rewrite Hc0, app_nil_r, Ha.
    replace (processes c0) with (processes c) by (rewrite Hsame; reflexivity).
    do 3 f_equal.
    unfold upstream_cable_log. rewrite Hname, Hsame. reflexivity.
  - intros e'. specialize (Hc e').
    destruct (decide (e = e')) as [<- | Hne].
    + rewrite lookup_alter_eq, E2, Hc0. simpl. constructor. split.
      * by apply same_cable_set.
      * rewrite decide_True by (apply elem_of_app; right; by left). simpl.
        rewrite He, !length_app, length_replicate. simpl. lia.
    + rewrite lookup_alter_ne by done.
      destruct Hc as [c1 c2 [Hc12 Hfresh] |]; constructor.
      split; [exact Hc12 |].
      destruct (decide (e' ∈ done)) as [Hin | Hnin].
      * rewrite decide_True by (apply elem_of_app; by left).
        rewrite length_app. simpl. lia.
      * rewrite decide_False
          by (intros [? | ?%list_elem_of_singleton]%elem_of_app; congruence).
        exact Hfresh.
Qed.

Lemma stop_all_upstream_processes_run w self me failure :
  cables w !! self = Some me →
  (∀ n, n ∈ upstream_nodes me → is_Some (systems w !! n)) →
  (∀ e, e ∈ upstream_cables me → is_Some (cables w !! e)) →
  ∃ w1 w',
    stop_all_upstream_processes self failure w = (inr tt, w') ∧
    nodes_stopped w (name me) failure (upstream_nodes me) w1 ∧
    cables_stopped w1 (name me) failure (upstream_cables me) w'.
Proof.
  intros Hme Hnodes Hedges.
  destruct (returns_for_each (nodes_stopped w (name me) failure)
              (upstream_nodes me) (stop_upstream_node self failure))
    with (w := w) as ([] & w1 & E1 & Hw1).
  { intros done x rest Hl. apply stop_upstream_node_run; [exact Hme |].
    apply Hnodes. rewrite Hl. set_solver. }
  { apply nodes_stopped_start. }
  pose proof Hw1 as (Hc1 & _).
  destruct (returns_for_each (cables_stopped w1 (name me) failure)
              (upstream_cables me) (stop_upstream_cable self failure))
    with (w := w1) as ([] & w2 & E2 & Hw2).
  { intros done x rest Hl. apply stop_upstream_cable_run.
    - rewrite Hc1. exact Hme.
    - rewrite Hc1. apply Hedges. rewrite Hl. set_solver. }
  { apply cables_stopped_start. }
  exists w1, w2. split; [| by split].
  unfold stop_all_upstream_processes, bind, windfarm_cable.
  rewrite Hme, E1. exact E2.
Qed.



End Cascade.

(** ** Construction *)

Lemma string_length_app (s1 s2 : string) :
  String.length (s1 +:+ s2) = (String.length s1 + String.length s2)%nat.
Proof. induction s1 as [|a s1 IH]; simpl; [reflexivity | by rewrite IH]. Qed.

(** The id of a cable is not the id of a node it starts from. *)
Lemma cable_id_not_start (start_node end_node : node) :
  cable_id start_node end_node ≠ start_node.
Proof.
  intros E. apply (f_equal String.length) in E.
  unfold cable_id in E. rewrite !string_length_app in E. simpl in E. lia.
Qed.

Section Construction.
Context {M : Type} `{RepairManager M}.

(** What [Cable.__init__] returns when it returns. *)
Lemma Cable_init_returns ct st en data name (w w' : World M) c :
  Cable_init ct st en data name w = (inr c, w') →
  ∃ es ecs,
    dfs_edges (graph w) en = Done es ∧
    edge_dfs (graph w) en = Done ecs ∧
    upstream_nodes c = chain_upstream en (group_edges es) ∧
    upstream_cables c = ecs ∧
    id c = cable_id st en ∧
    start_node c = st ∧ system c = st ∧
    operating_level c = 1%Q.
Proof.
  unfold Cable_init, bind, graph_node, windfarm_system.
  destruct (adj (graph w) st); [| discriminate].
  destruct (systems w !! st); [| discriminate].
  destruct (_ || _); [| discriminate]. unfold ret at 1.
  unfold dfs_successors.
  destruct (dfs_edges (graph w) en) as [es| |]; try discriminate.
  simpl.
  destruct (edge_dfs (graph w) en) as [ecs| |]; try discriminate.
  simpl. intros [= <- <-]. exists es, ecs. repeat split; reflexivity.
Qed.

(** [Cable.__init__] returns a cable when the graph is closed, holds both
    end points and a system at the start node, and the connection type
    is one of the two. *)
Lemma Cable_init_total ct st en data name (w : World M) :
  closed_graph (graph w) →
  is_Some (adj (graph w) st) →
  is_Some (adj (graph w) en) →
  is_Some (systems w !! st) →
  ct = "array" ∨ ct = "export" →
  ∃ c w', Cable_init ct st en data name w = (inr c, w').
Proof.
  intros Hclosed [? Hs] He [? Hsys] Hct.
  destruct (dfs_edges_total (graph w) en Hclosed He) as [es Hes].
  destruct (edge_dfs_total (graph w) en Hclosed He) as [ecs Hecs].
  unfold Cable_init, bind, graph_node, windfarm_system.
  rewrite Hs, Hsys.
  assert (Hok : bool_decide (ct = "array") || bool_decide (ct = "export")
                = true).
  { destruct Hct as [-> | ->]; reflexivity. }
  rewrite Hok. unfold ret at 1. unfold dfs_successors. rewrite Hes. simpl.
  rewrite Hecs. simpl. by eexists _, _.
Qed.

Local Instance same_topology_preorder : PreOrder same_topology.
Proof.
  split.
  - by intros c.
  - intros c1 c2 c3 [H1 H2] [H3 H4]. split; congruence.
Qed.

(** No step of the core writes [upstream_nodes] or [upstream_cables]. *)
Lemma topology_fixed P (w1 w2 : World M) e c :
  rtc (sim_step P) w1 w2 →
  cables w1 !! e = Some c →
  ∃ c2, cables w2 !! e = Some c2 ∧ same_topology c c2.
Proof.
  intros Hsteps Hc.
  assert (Hrel : cables_rel same_topology w1 w2).
  { eapply (sim_steps_cables_rel same_topology); [..| exact Hsteps];
      by intros. }
  specialize (Hrel e). rewrite Hc in Hrel.
  inversion Hrel as [? c2 Hk |]; subst. by exists c2.
Qed.

(** C9, as the code has it.  In a farm whose graph is closed and holds
    the cable's end points (and a system at its start), construction
    returns a cable whose [upstream_nodes] is [end_node] followed by
    the successor lists of the depth-first search from [end_node], one
    list per parent, in the order in which the parents got their first
    child.  This list holds the nodes reachable from [end_node], each
    once, so it is a rearrangement of the order in which the search
    discovers them, and it is that order when no node has two children
    in the search.  [upstream_cables] is the list of edges of the
    depth-first edge traversal from [end_node], in its order.  No step
    of the core changes either list. *)
Theorem upstream_snapshot_at_construction ct st en data name (w : World M) :
  closed_graph (graph w) →
  is_Some (adj (graph w) st) →
  is_Some (adj (graph w) en) →
  is_Some (systems w !! st) →
  ct = "array" ∨ ct = "export" →
  ∃ c w' es order ecs,
    Cable_init ct st en data name w = (inr c, w') ∧
    dfs_edges (graph w) en = Done es ∧
    dfs_preorder_nodes (graph w) en = Done order ∧
    edge_dfs (graph w) en = Done ecs ∧
    upstream_nodes c = en :: concat (map snd (group_edges es)) ∧
    upstream_nodes c ≡ₚ order ∧
    (NoDup (map fst es) → upstream_nodes c = order) ∧
    NoDup (upstream_nodes c) ∧
    (∀ v, v ∈ upstream_nodes c ↔ rtc (has_edge (graph w)) en v) ∧
    upstream_cables c = ecs ∧
    (∀ P (w1 w2 : World M) e,
       cables w1 !! e = Some c → rtc (sim_step P) w1 w2 →
       ∃ c2, cables w2 !! e = Some c2 ∧
             upstream_nodes c2 = upstream_nodes c ∧
             upstream_cables c2 = upstream_cables c).
Proof.
  intros Hclosed Hs He Hsys Hct.
  destruct (Cable_init_total ct st en data name w Hclosed Hs He Hsys Hct)
    as (c & w' & Hinit).
  destruct (Cable_init_returns _ _ _ _ _ _ _ _ Hinit)
    as (es & ecs & Hes & Hecs & Hnodes & Hcables & _).
  destruct (dfs_edges_spec (graph w) en es Hes) as [Hnd Hreach].
  rewrite chain_upstream_values in Hnodes.
  assert (Hperm : upstream_nodes c ≡ₚ en :: map snd es).
  { rewrite Hnodes. constructor. apply group_edges_values. }
  exists c, w', es, (en :: map snd es), ecs.
  split; [exact Hinit |]. split; [exact Hes |].
  split; [unfold dfs_preorder_nodes; by rewrite Hes |].
  split; [exact Hecs |]. split; [exact Hnodes |]. split; [exact Hperm |].
  split; [intros Hsingle; by rewrite Hnodes, group_edges_single |].
  split; [by rewrite Hperm |].
  split; [intros v; rewrite Hperm; apply Hreach |].
  split; [exact Hcables |].
  intros P w1 w2 e Hc Hsteps.
  destruct (topology_fixed P w1 w2 e c Hsteps Hc) as (c2 & Hc2 & Hn & Hcs).
  by exists c2.
Qed.

End Construction.

(** ** The requests that the timers register *)

Section Requests.
Context {M : Type} `{RepairManager M}.

Lemma registers_nothing_bind {A B} (c : CM M A) (k : A → CM M B) :
  registers_nothing (M:=M) c → (∀ a, registers_nothing (M:=M) (k a)) →
  registers_nothing (M:=M) (bind c k).
Proof.
  intros Hc Hk w r w'. unfold bind.
  destruct (c w) as [[e|a] w1] eqn:E; intros Hr.
  - inversion Hr; subst. eauto.
  - etrans; [eapply Hk | eapply Hc]; eauto.
Qed.

Lemma registers_nothing_silent {A} (c : CM M A) :
  (∀ w, trace (c w).2 = trace w) → registers_nothing (M:=M) c.
Proof.
  intros Hc w r w' E. specialize (Hc w). rewrite E in Hc. simpl in Hc.
  by rewrite Hc.
Qed.

Lemma registers_nothing_for_each {A} (l : list A) (body : A → CM M unit) :
  (∀ x, registers_nothing (M:=M) (body x)) → registers_nothing (M:=M) (for_each l body).
Proof.
  intros Hb. induction l as [|x l IH]; simpl.
  - by apply registers_nothing_silent.
  - apply registers_nothing_bind; auto.
Qed.

Lemma registers_nothing_except (c : CM M unit) :
  registers_nothing (M:=M) c → registers_nothing (M:=M) (except_RuntimeError c).
Proof.
  intros Hc w r w'. unfold except_RuntimeError.
  destruct (c w) as [[[]|[]] w1] eqn:E; intros [= <- <-]; eauto.
Qed.

Lemma registers_nothing_emit e :
  is_register e = false → registers_nothing (M:=M) (emit e).
Proof.
  intros He w r w' [= <- <-]. simpl. rewrite filter_app. simpl.
  rewrite filter_cons_False by (rewrite He; by intros []).
  by rewrite filter_nil, app_nil_r.
Qed.

Lemma registers_nothing_process_interrupt t :
  registers_nothing (M:=M) (process_interrupt t).
Proof.
  intros w r w'. unfold process_interrupt. case_bool_decide.
  - by intros [= <- <-].
  - by apply registers_nothing_emit.
Qed.

Lemma registers_nothing_windfarm_cable e :
  registers_nothing (M:=M) (windfarm_cable e).
Proof.
  apply registers_nothing_silent. intros w. unfold windfarm_cable.
  destruct (cables w !! e); reflexivity.
Qed.

Lemma registers_nothing_windfarm_system n :
  registers_nothing (M:=M) (windfarm_system n).
Proof.
  apply registers_nothing_silent. intros w. unfold windfarm_system.
  destruct (systems w !! n); reflexivity.
Qed.

Lemma registers_nothing_get_request_id r :
  registers_nothing (M:=M) (get_request_id r).
Proof.
  apply registers_nothing_silent. intros w. unfold get_request_id.
  destruct (request_id r); reflexivity.
Qed.

Lemma registers_nothing_manager_purge s p ex :
  registers_nothing (M:=M) (manager_purge s p ex).
Proof.
  intros w r w' [= <- <-]. simpl. rewrite filter_app. simpl.
  rewrite filter_cons_False by (by intros []).
  by rewrite filter_nil, app_nil_r.
Qed.

Lemma registers_nothing_manager_submit q :
  registers_nothing (M:=M) (manager_submit q).
Proof.
  intros w r w' [= <- <-]. simpl. rewrite filter_app. simpl.
  rewrite filter_cons_False by (by intros []).
  by rewrite filter_nil, app_nil_r.
Qed.

End Requests.

Ltac silent :=
  repeat first
    [ apply registers_nothing_bind; [| intros ?]
    | apply registers_nothing_for_each; intros ?
    | apply registers_nothing_except
    | apply registers_nothing_process_interrupt
    | apply registers_nothing_windfarm_cable
    | apply registers_nothing_windfarm_system
    | apply registers_nothing_get_request_id
    | apply registers_nothing_manager_purge
    | apply registers_nothing_manager_submit
    | apply registers_nothing_emit; reflexivity
    | apply registers_nothing_silent; intros ?; reflexivity
    | match goal with
      | |- registers_nothing (if ?b then _ else _) => destruct b
      end ].

Section RequestIdentity.
Context {M : Type} `{RepairManager M}.

(** A run of [failure_occurs], whatever its result, makes one
    registration: of the request built from the cable, its level
    reduced. *)
Lemma failure_occurs_registers self failure (w w' : World M) c r :
  cables w !! self = Some c →
  failure_occurs self failure w = (r, w') →
  filter is_register (trace w') =
  filter is_register (trace w) ++
  [ERegister
     (failure_request
        (set_operating_level c
           (operating_level c * (1 - operation_reduction failure))%Q)
        failure)].
Proof.
  intros Hc. unfold failure_occurs.
  unfold bind at 1, update_cable at 1.
  unfold bind at 1, windfarm_cable at 1. simpl.
  rewrite lookup_alter_eq, Hc. simpl.
  unfold bind at 1, manager_register at 1. simpl.
  match goal with
  | |- ?k ?w1 = _ → _ =>
    assert (Hk : registers_nothing (M:=M) k); [| intros Hrun; apply Hk in Hrun]
  end.
  { unfold interrupt_processes, log_action. silent. }
  rewrite Hrun. simpl. rewrite filter_app. reflexivity.
Qed.

(** A run of [maintenance_due] makes one registration: of the request
    built from the cable and the system at its start node. *)
Lemma maintenance_due_registers self m (w w' : World M) c s r :
  cables w !! self = Some c →
  systems w !! system c = Some s →
  maintenance_due self m w = (r, w') →
  filter is_register (trace w') =
  filter is_register (trace w) ++ [ERegister (maintenance_request c s m)].
Proof.
  intros Hc Hs. unfold maintenance_due.
  unfold bind at 1, windfarm_cable at 1. rewrite Hc.
  unfold bind at 1, windfarm_system at 1. rewrite Hs.
  unfold bind at 1, manager_register at 1.
  match goal with
  | |- ?k ?w1 = _ → _ =>
    assert (Hk : registers_nothing (M:=M) k); [| intros Hrun; apply Hk in Hrun]
  end.
  { unfold log_action. silent. }
  rewrite Hrun. simpl. rewrite filter_app. reflexivity.
Qed.

(** C10.  At the end of a countdown the failure timer registers one
    request, whose system id and name and part id and name are the
    cable's id and name; the maintenance timer registers one request,
    whose system id and name are those of the system at the cable's
    start node and whose part id and name are the cable's.  The id of
    the cable being ["cable::<start>::<end>"] and the id of that system
    the start node itself, the two system ids differ. *)
Theorem repair_request_identities self failure m (w wf wm : World M) c s rf rm :
  cables w !! self = Some c →
  systems w !! system c = Some s →
  failure_occurs self failure w = (rf, wf) →
  maintenance_due self m w = (rm, wm) →
  ∃ qf qm,
    filter is_register (trace wf) =
      filter is_register (trace w) ++ [ERegister qf] ∧
    filter is_register (trace wm) =
      filter is_register (trace w) ++ [ERegister qm] ∧
    (system_id qf = id c ∧ system_name qf = name c ∧
     subassembly_id qf = id c ∧ subassembly_name qf = name c) ∧
    (system_id qm = sys_id s ∧ system_name qm = sys_name s ∧
     subassembly_id qm = id c ∧ subassembly_name qm = name c) ∧
    (id c = cable_id (start_node c) (end_node c) →
     sys_id s = start_node c →
     system_id qf ≠ system_id qm).
Proof.
  intros Hc Hs Hf Hm. eexists _, _.
  split; [exact (failure_occurs_registers self failure w wf c rf Hc Hf) |].
  split; [exact (maintenance_due_registers self m w wm c s rm Hc Hs Hm) |].
  split; [by repeat split |]. split; [by repeat split |].
  simpl. intros -> ->. apply cable_id_not_start.
Qed.

End RequestIdentity.

(** ** The timers on the example farm *)

Lemma farm_cable_A : cables farm !! A = Some cableA.
Proof. vm_compute. reflexivity. Qed.

Lemma farm_broken_cable_A : cables farm_broken !! A = Some (set_broken cableA 21).
Proof. vm_compute. reflexivity. Qed.

(** C3.  The hazard function of [fN] returns [None]: the failure timer
    of cable [A] pauses for the 500 hours of the horizon; whether that
    wait ends at hour 500 or is interrupted at hour 100, the generator
    then fails its [assert] on [hours_to_next], so it ends with an
    AssertionError instead of going on to a new draw. *)
Theorem failure_none_ends_in_assertion_error :
  let l := {| hours_to_next := None; remainder := Some 500%Q; start := None;
              draws := 1 |} in
  start_single_failure 5 A fN farm = Suspended AtHorizon (Timeout 500) l farm
  ∧ (∀ w : World ListManager,
       run_single_failure 5 A fN AtHorizon Resume l w = Raised AssertionError w)
  ∧ (∀ w : World ListManager,
       run_single_failure 5 A fN AtHorizon Interrupt l (with_now w 100) =
       Raised AssertionError (with_now w 100)).
Proof.
  intros l. split; [| split; intros w; reflexivity].
  vm_compute. reflexivity.
Qed.

Lemma farm3_cable_A : cables (with_now farm 3) !! A = Some cableA.
Proof. vm_compute. reflexivity. Qed.

Lemma farm3_broken_cable_A :
  cables (with_now farm_broken 3) !! A = Some (set_broken cableA 21).
Proof. vm_compute. reflexivity. Qed.





(** C4, as stated, fails.  Every draw of [fZ] is 0; the failure timer of
    cable [A] raises nothing: after five iterations of its outer loop it
    is still looping, the state as it was. *)
Lemma failure_zero_draw_does_not_abort :
  hours_to_next_failure fZ 0 = Some 0%Q ∧
  start_single_failure 5 A fZ farm = Spinning farm ∧
  raised (start_single_failure 5 A fZ farm) = None.
Proof. vm_compute. repeat split; reflexivity. Qed.

Lemma failure_nonpositive_draw_witness :
  failure_loop 5 A fZ locals0 farm = Spinning farm.
Proof.
  apply (failure_nonpositive_draw (M:=ListManager) A fZ locals0 farm).
  intros n. exists 0%Q. split; [reflexivity | vm_compute; discriminate].
Defined.

(** C5, as stated, fails.  The maintenance timer of frequency zero on
    the farm (horizon 500 hours), not interrupted: resumed at hour 500
    and twice more, it has registered and submitted no request, and
    waits again, for zero hours. *)
Lemma maintenance_frequency_zero_submits_nothing :
  let o := uninterrupted 3 (A, KMaint 0) (run_single_maintenance 5 A m0)
             (start_single_maintenance 5 A m0 farm) in
  now (outcome_world o) = 500%Q ∧
  filter is_submit (trace (outcome_world o)) = [] ∧
  filter is_register (trace (outcome_world o)) = [] ∧
  items (manager (outcome_world o)) = [].
Proof. vm_compute. repeat split; reflexivity. Qed.

Lemma maintenance_frequency_zero_no_request_witness :
  ∃ d l w',
    uninterrupted 3 (A, KMaint 0) (run_single_maintenance 5 A m0)
      (start_single_maintenance 5 A m0 farm) =
    Suspended AtHorizon (Timeout d) l w' ∧ trace w' = trace farm.
Proof.
  destruct (maintenance_frequency_zero_no_request 3 4 (A, KMaint 0) A m0 farm
              ltac:(vm_compute; reflexivity) ltac:(vm_compute; discriminate))
    as (d & l & w' & Ho & Ht & _).
  exists d, l, w'. split; [exact Ho | exact Ht].
Defined.

(** At its first gate the failure timer of cable [A] has not yet bound
    [start]; an interrupt thrown there while [broken] is clear makes the
    handler read it. *)
Lemma first_gate_interrupt_reads_unbound_start :
  ∃ l, start_single_failure 5 A fA farm = Suspended AtGate (AllOf 18 19 20) l farm ∧
       start l = None ∧
       raised (run_single_failure 5 A fA AtGate Interrupt l farm) =
       Some (UnboundLocalError "start").
Proof. eexists. split; [vm_compute; reflexivity |]. split; vm_compute; reflexivity. Qed.

Lemma failure_horizon_interrupt_raises_witness :
  ∃ l, start_single_failure 5 A fN farm =
         Suspended AtHorizon (Timeout (max_run_time farm - now farm)) l farm ∧
       run_single_failure 5 A fN AtHorizon Interrupt l (with_now farm 100) =
       Raised AssertionError (with_now farm 100).
Proof.
  destruct (failure_horizon_interrupt_raises 4 5 A fN farm eq_refl
              ltac:(vm_compute; discriminate)) as (l & Hstart & Hint).
  exists l. split; [exact Hstart | apply Hint].
Defined.

(** ** Construction and cascade on the example farm *)

Lemma adj_In G a vs : adj G a = Some vs → In (a, vs) G.
Proof.
  induction G as [|[k ws] G IH]; simpl; [discriminate |].
  case_decide; [intros [= ->]; subst; by left | intros; right; auto].
Qed.

Lemma closed_graphb_correct G : closed_graphb G = true → closed_graph G.
Proof.
  unfold closed_graphb. rewrite forallb_forall.
  intros Hall a b (vs & Hvs & Hb).
  specialize (Hall (a, vs) (adj_In G a vs Hvs)). simpl in Hall.
  rewrite forallb_forall in Hall.
  apply list_elem_of_In in Hb. specialize (Hall b Hb).
  by apply bool_decide_eq_true in Hall.
Qed.

Lemma farm_graph_closed : closed_graph farm_graph.
Proof. apply closed_graphb_correct. vm_compute. reflexivity. Qed.

(** C9, as stated, fails.  For the cable from [S] to [T1] of the farm,
    [upstream_nodes] lists [T4] before [T5], whereas the depth-first
    search from [T1] discovers [T5] (below [T3]) before [T4]. *)
Lemma upstream_nodes_not_in_dfs_order :
  ∃ c w',
    Cable_init "array" "S" "T1" farm_data None farm0 = (inr c, w') ∧
    upstream_nodes c = ["T1"; "T2"; "T3"; "T4"; "T5"] ∧
    dfs_preorder_nodes (graph farm0) "T1" =
      Done ["T1"; "T2"; "T3"; "T5"; "T4"] ∧
    Done (upstream_nodes c) ≠ dfs_preorder_nodes (graph farm0) "T1".
Proof.
  eexists _, _. split; [vm_compute; reflexivity |].
  split; [reflexivity |]. split; [vm_compute; reflexivity |].
  vm_compute. discriminate.
Qed.

Lemma upstream_snapshot_at_construction_witness :
  ∃ c w', Cable_init "array" "S" "T1" farm_data None farm0 = (inr c, w') ∧
          NoDup (upstream_nodes c).
Proof.
  destruct (upstream_snapshot_at_construction "array" "S" "T1" farm_data None
              farm0 farm_graph_closed
              ltac:(eexists; vm_compute; reflexivity)
              ltac:(eexists; vm_compute; reflexivity)
              ltac:(eexists; vm_compute; reflexivity)
              ltac:(left; reflexivity))
    as (c & w' & es & order & ecs & Hinit & _ & _ & _ & _ & _ & _ & Hnd & _).
  exists c, w'. split; [exact Hinit | exact Hnd].
Defined.

Lemma farm_system_S : systems farm !! system cableA = Some (turbine "S" 0).
Proof. vm_compute. reflexivity. Qed.

Lemma farm_upstream_systems n :
  n ∈ upstream_nodes cableA → is_Some (systems farm !! n).
Proof.
  intros Hn. simpl in Hn.
  repeat (apply elem_of_cons in Hn as [-> | Hn];
          [eexists; vm_compute; reflexivity |]).
  apply elem_of_nil in Hn. destruct Hn.
Qed.

Lemma farm_upstream_cables e :
  e ∈ upstream_cables cableA → is_Some (cables farm !! e).
Proof.
  intros He. simpl in He.
  repeat (apply elem_of_cons in He as [-> | He];
          [eexists; vm_compute; reflexivity |]).
  apply elem_of_nil in He. destruct He.
Qed.



Lemma fA_valid_reduction : valid_reduction fA.
Proof. split; vm_compute; discriminate. Qed.

Lemma operating_level_bounded_nonincreasing_witness :
  ∃ c', cables (outcome_world
                  (run_single_failure 5 A fA AtCountdown Resume
                     (counting 10 0) farm)) !! A = Some c' ∧
        (0 <= operating_level c' <= operating_level cableA)%Q ∧
        (operating_level c' <= 1)%Q.
Proof.
  apply (operating_level_bounded_nonincreasing farm _ A cableA).
  - apply rtc_once, sim_core.
    apply (step_failure valid_reduction farm 5 A fA AtCountdown Resume
             (counting 10 0) fA_valid_reduction).
  - exact farm_cable_A.
  - split; vm_compute; discriminate.
Defined.

Lemma repair_request_identities_witness :
  ∃ qf qm,
    filter is_register (trace (failure_occurs A fA farm).2) =
      filter is_register (trace farm) ++ [ERegister qf] ∧
    filter is_register (trace (maintenance_due A m100 farm).2) =
      filter is_register (trace farm) ++ [ERegister qm] ∧
    system_id qf ≠ system_id qm.
Proof.
  destruct (repair_request_identities A fA m100 farm
              (failure_occurs A fA farm).2 (maintenance_due A m100 farm).2
              cableA (turbine "S" 0) (failure_occurs A fA farm).1
              (maintenance_due A m100 farm).1
              farm_cable_A farm_system_S
              (surjective_pairing _) (surjective_pairing _))
    as (qf & qm & Hf & Hm & _ & _ & Hne).
  exists qf, qm. split; [exact Hf |]. split; [exact Hm |].
  apply Hne; reflexivity.
Defined.

(** * Further properties *)

(** ** What every call keeps *)

Section Keeping.
Context {M : Type} `{RepairManager M}.
Variable Rw : World M → World M → Prop.
Context `{!PreOrder Rw}.
Hypothesis Rw_trace : ∀ w t, Rw w (with_trace w t).
Hypothesis Rw_manager : ∀ w m, Rw w (with_manager w m).
Hypothesis Rw_level : ∀ w e q,
  Rw w (with_cables w
          (alter (λ c, set_operating_level c (operating_level c * q)%Q) e
             (cables w))).
Hypothesis Rw_broken : ∀ w e,
  Rw w (with_cables (with_events w (events w ++ [false]))
          (alter (λ c, set_broken c (length (events w))) e (cables w))).
Hypothesis Rw_downstream_failure : ∀ w e,
  Rw w (with_cables (with_events w (events w ++ [false]))
          (alter (λ c, set_downstream_failure c (length (events w))) e
             (cables w))).
Hypothesis Rw_cable_failure : ∀ w n,
  Rw w (with_systems (with_events w (events w ++ [false]))
          (alter (λ s, set_cable_failure s (length (events w))) n
             (systems w))).
Implicit Types w : World M.

Lemma keeps_bind {A B} (c : CM M A) (k : A → CM M B) :
  keeps Rw c → (∀ a, keeps Rw (k a)) → keeps Rw (bind c k).
Proof.
  intros Hc Hk w r w'. unfold bind.
  destruct (c w) as [[e|a] w1] eqn:E; intros Hr.
  - inversion Hr; subst. eauto.
  - etrans; [eapply Hc | eapply Hk]; eauto.
Qed.

Lemma keeps_pure {A} (c : CM M A) :
  (∀ w, (c w).2 = w) → keeps Rw c.
Proof.
  intros Hc w r w' E. specialize (Hc w). rewrite E in Hc. simpl in Hc.
  by subst.
Qed.

Lemma keeps_for_each {A} (l : list A) (body : A → CM M unit) :
  (∀ x, keeps Rw (body x)) → keeps Rw (for_each l body).
Proof.
  intros Hb. induction l as [|x l IH]; simpl.
  - by apply keeps_pure.
  - apply keeps_bind; auto.
Qed.

Lemma keeps_except (c : CM M unit) :
  keeps Rw c → keeps Rw (except_RuntimeError c).
Proof.
  intros Hc w r w'. unfold except_RuntimeError.
  destruct (c w) as [[[]|[]] w1] eqn:E; intros [= <- <-]; eauto.
Qed.

Lemma keeps_emit e : keeps Rw (emit (M:=M) e).
Proof. intros w r w' [= <- <-]. apply Rw_trace. Qed.

Lemma keeps_windfarm_cable e : keeps Rw (windfarm_cable (M:=M) e).
Proof.
  apply keeps_pure. intros w. unfold windfarm_cable.
  by destruct (cables w !! e).
Qed.

Lemma keeps_windfarm_system n : keeps Rw (windfarm_system (M:=M) n).
Proof.
  apply keeps_pure. intros w. unfold windfarm_system.
  by destruct (systems w !! n).
Qed.

Lemma keeps_get_request_id r : keeps Rw (get_request_id (M:=M) r).
Proof.
  apply keeps_pure. intros w. unfold get_request_id.
  by destruct (request_id r).
Qed.

Lemma keeps_process_interrupt t : keeps Rw (process_interrupt (M:=M) t).
Proof.
  intros w r w'. unfold process_interrupt. case_bool_decide.
  - intros [= <- <-]. reflexivity.
  - apply keeps_emit.
Qed.

Lemma keeps_interrupt_processes self : keeps Rw (interrupt_processes self).
Proof.
  unfold interrupt_processes. apply keeps_bind.
  - apply keeps_windfarm_cable.
  - intros c. apply keeps_for_each. intros k. apply keeps_except,
      keeps_process_interrupt.
Qed.

Lemma keeps_manager_register r : keeps Rw (manager_register r).
Proof.
  intros w r' w' [= <- <-]. etrans; [apply Rw_manager | apply Rw_trace].
Qed.

Lemma keeps_manager_purge s p ex : keeps Rw (manager_purge s p ex).
Proof.
  intros w r' w' [= <- <-]. etrans; [apply Rw_manager | apply Rw_trace].
Qed.

Lemma keeps_manager_submit r : keeps Rw (manager_submit r).
Proof.
  intros w r' w' [= <- <-]. etrans; [apply Rw_manager | apply Rw_trace].
Qed.

(** A new pending event stored in a cable or a system, and the code
    after it. *)
Lemma keeps_new_broken {B} self (k : event → CM M B) :
  (∀ e, keeps Rw (k e)) →
  keeps Rw (bind new_event (λ e,
            bind (update_cable self (λ c', set_broken c' e)) (λ _, k e))).
Proof.
  intros Hk w r w'. unfold bind, new_event, update_cable. simpl.
  intros E. etrans; [apply (Rw_broken w self) |]. eapply Hk. exact E.
Qed.

Lemma keeps_new_downstream_failure {B} e0 (k : event → CM M B) :
  (∀ e, keeps Rw (k e)) →
  keeps Rw (bind new_event (λ e,
            bind (update_cable e0 (λ c', set_downstream_failure c' e))
              (λ _, k e))).
Proof.
  intros Hk w r w'. unfold bind, new_event, update_cable. simpl.
  intros E. etrans; [apply (Rw_downstream_failure w e0) |]. eapply Hk.
  exact E.
Qed.

Lemma keeps_new_cable_failure {B} n (k : event → CM M B) :
  (∀ e, keeps Rw (k e)) →
  keeps Rw (bind new_event (λ e,
            bind (update_system n (λ s, set_cable_failure s e))
              (λ _, k e))).
Proof.
  intros Hk w r w'. unfold bind, new_event, update_system. simpl.
  intros E. etrans; [apply (Rw_cable_failure w n) |]. eapply Hk.
  exact E.
Qed.

Ltac keep :=
  repeat first
    [ apply keeps_interrupt_processes
    | apply keeps_emit
    | apply keeps_windfarm_cable
    | apply keeps_windfarm_system
    | apply keeps_get_request_id
    | apply keeps_manager_register
    | apply keeps_manager_purge
    | apply keeps_manager_submit
    | apply keeps_new_broken; intros ?
    | apply keeps_new_downstream_failure; intros ?
    | apply keeps_new_cable_failure; intros ?
    | apply keeps_bind; [| intros ?]
    | apply keeps_for_each; intros ?
    | apply keeps_pure; intros ?; reflexivity
    | match goal with
      | |- keeps Rw (if ?b then _ else _) => destruct b
      end ].

Lemma keeps_stop_all_upstream_processes self failure :
  keeps Rw (stop_all_upstream_processes self failure).
Proof.
  unfold stop_all_upstream_processes, stop_upstream_node,
    stop_upstream_cable, log_action.
  keep.
Qed.

(** The part of [failure_occurs] after the reduction of the operating
    level. *)
Lemma keeps_update_level self failure :
  keeps Rw (update_cable (M:=M) self
    (λ c, set_operating_level c
            (operating_level c * (1 - operation_reduction failure))%Q)).
Proof. intros w r w' [= <- <-]. apply Rw_level. Qed.

Lemma keeps_failure_occurs self failure :
  keeps Rw (failure_occurs self failure).
Proof.
  unfold failure_occurs, log_action.
  apply keeps_bind; [apply keeps_update_level | intros _].
  keep; apply keeps_stop_all_upstream_processes.
Qed.

Lemma keeps_maintenance_due self m : keeps Rw (maintenance_due self m).
Proof. unfold maintenance_due, log_action. keep. Qed.

Lemma core_step_keeps P w w' : core_step P w w' → Rw w w'.
Proof.
  intros [fuel self failure HP | fuel self failure p sig l HP
         | fuel self m | fuel self m p sig l].
  - unfold start_single_failure. rewrite failure_loop_world. reflexivity.
  - destruct (run_single_failure_world fuel self failure p sig l w)
      as [-> | (_ & _ & ->)]; [reflexivity |].
    destruct (failure_occurs self failure w) as [r w1] eqn:E.
    eapply keeps_failure_occurs; eauto.
  - unfold start_single_maintenance. rewrite maintenance_loop_world.
    reflexivity.
  - destruct (run_single_maintenance_world fuel self m p sig l w)
      as [-> | (_ & _ & ->)]; [reflexivity |].
    destruct (maintenance_due self m w) as [r w1] eqn:E.
    eapply keeps_maintenance_due; eauto.
Qed.

Lemma core_steps_keep P w w' : rtc (core_step P) w w' → Rw w w'.
Proof.
  induction 1 as [|w1 w2 w3 Hs _ IH]; [reflexivity |].
  etrans; [| exact IH]. by eapply core_step_keeps.
Qed.

End Keeping.

(** ** Construction *)

Section ConstructionMore.
Context {M : Type} `{RepairManager M}.
Implicit Types (w : World M).

(** X1.  When [Cable.__init__] raises, it has changed nothing: every
    check and both traversals come before the first event is created. *)
Theorem Cable_init_failure_leaves_state ct st en data name w e w' :
  Cable_init ct st en data name w = (inl e, w') → w' = w.
Proof.
  unfold Cable_init, bind, graph_node, windfarm_system.
  destruct (adj (graph w) st); [| by intros [= _ <-]].
  destruct (systems w !! st); [| by intros [= _ <-]].
  destruct (_ || _); [| by intros [= _ <-]]. unfold ret at 1.
  destruct (dfs_successors (graph w) en) as [up| |]; simpl;
    try by intros [= _ <-].
  destruct (edge_dfs (graph w) en) as [ecs| |]; simpl;
    try by intros [= _ <-].
Qed.

(** X2.  With the start node in the graph and a system stored there, a
    connection type other than ["array"] and ["export"] is refused with
    a ValueError, whatever the end node is: the check comes before the
    traversals from the end node. *)
Theorem Cable_init_rejects_connection_type ct st en data name w :
  is_Some (adj (graph w) st) →
  is_Some (systems w !! st) →
  ct ≠ "array" → ct ≠ "export" →
  Cable_init ct st en data name w = (inl (ValueError "connection_type"), w).
Proof.
  intros [? Hs] [? Hsys] Ha He.
  unfold Cable_init, bind, graph_node, windfarm_system.
  rewrite Hs, Hsys.
  rewrite bool_decide_false by exact Ha.
  rewrite bool_decide_false by exact He. reflexivity.
Qed.

Lemma insert_after_length {A} (l : list A) (x y : A) (k : list A) :
  <[length l := y]> (l ++ x :: k) = l ++ y :: k.
Proof.
  induction l as [|a l IH]; simpl; [reflexivity | by rewrite IH].
Qed.

(** X3.  A cable that is constructed has three new events as its
    signals, one after the other in the event store, all three
    triggered (the signals start clear); the events that were there and
    the rest of the state are as they were. *)
Theorem Cable_init_signals ct st en data name w c w' :
  Cable_init ct st en data name w = (inr c, w') →
  events w' = events w ++ [true; true; true] ∧
  servicing c = length (events w) ∧
  downstream_failure c = S (length (events w)) ∧
  broken c = S (S (length (events w))) ∧
  triggered w' (servicing c) = true ∧
  triggered w' (downstream_failure c) = true ∧
  triggered w' (broken c) = true ∧
  w' = with_events w (events w').
Proof.
  unfold Cable_init, bind, graph_node, windfarm_system.
  destruct (adj (graph w) st); [| discriminate].
  destruct (systems w !! st); [| discriminate].
  destruct (_ || _); [| discriminate]. unfold ret at 1.
  destruct (dfs_successors (graph w) en) as [up| |]; simpl; try discriminate.
  destruct (edge_dfs (graph w) en) as [ecs| |]; simpl; try discriminate.
  intros [= <- <-]. simpl.
  match goal with
  | |- ?ev = _ ∧ _ => assert (Hev : ev = events w ++ [true; true; true])
  end.
  { rewrite <- !app_assoc. simpl.
    rewrite insert_after_length.
    replace (events w ++ [true; false; false])
      with ((events w ++ [true]) ++ [false; false])
      by (by rewrite <- app_assoc).
    replace (length (events w ++ [false])) with (length (events w ++ [true]))
      by (by rewrite !length_app).
    rewrite insert_after_length.
    replace ((events w ++ [true]) ++ [true; false])
      with ((events w ++ [true; true]) ++ [false])
      by (by rewrite <- !app_assoc).
    replace (length (events w ++ [false; false]))
      with (length (events w ++ [true; true]))
      by (by rewrite !length_app).
    rewrite insert_after_length. by rewrite <- app_assoc. }
  rewrite Hev. unfold triggered. simpl.
  split; [reflexivity |].
  split; [reflexivity |].
  split; [by rewrite length_app; simpl; lia |].
  split; [by rewrite !length_app; simpl; lia |].
  split; [by rewrite lookup_app_r, Nat.sub_diag by lia |].
  split.
  { rewrite lookup_app_r by (rewrite length_app; simpl; lia).
    rewrite length_app. simpl.
    by replace (length (events w) + 1 - length (events w))%nat with 1%nat
      by lia. }
  split; [| reflexivity].
  rewrite lookup_app_r by (rewrite !length_app; simpl; lia).
  rewrite !length_app. simpl.
  by replace (length (events w) + 1 + 1 - length (events w))%nat with 2%nat
    by lia.
Qed.

End ConstructionMore.

Lemma graph_weight_pos G n vs : adj G n = Some vs → (1 ≤ graph_weight G)%nat.
Proof.
  unfold graph_weight. destruct G as [|[k ws] G]; simpl; [discriminate | lia].
Qed.

Section ConstructionLeaf.
Context {M : Type} `{RepairManager M}.
Implicit Types (w : World M).

(** X4.  A cable whose end node has no successor in the graph has only
    that node upstream and no upstream cable. *)
Theorem Cable_init_leaf ct st en data name w c w' :
  adj (graph w) en = Some [] →
  Cable_init ct st en data name w = (inr c, w') →
  upstream_nodes c = [en] ∧ upstream_cables c = [].
Proof.
  intros Hen Hinit.
  destruct (Cable_init_returns _ _ _ _ _ _ _ _ Hinit)
    as (es & ecs & Hes & Hecs & -> & -> & _).
  assert (es = []) as ->.
  { unfold dfs_edges in Hes. rewrite Hen in Hes. simpl in Hes.
    pose proof (graph_weight_pos _ _ _ Hen) as Hpos.
    destruct (graph_weight (graph w)) as [|k]; [lia |].
    simpl in Hes. congruence. }
  assert (ecs = []) as ->.
  { unfold edge_dfs in Hecs. simpl in Hecs.
    unfold edge_dfs_enter, edges_from in Hecs. simpl in Hecs.
    rewrite Hen in Hecs. simpl in Hecs.
    rewrite decide_True in Hecs by done. simpl in Hecs. congruence. }
  split; reflexivity.
Qed.

End ConstructionLeaf.

(** ** The process table *)

Lemma NoDup_create_processes d :
  NoDup (map fst (failures d)) → NoDup (create_processes d).
Proof.
  intros Hnd. unfold create_processes.
  assert (Inj (=) (=) KLevel) by (by intros a b [=]).
  assert (Inj (=) (=) KMaint) by (by intros a b [=]).
  apply NoDup_app. split; [| split].
  - rewrite <- (map_map fst KLevel (failures d)).
    by apply (NoDup_fmap_2 KLevel).
  - intros k (lf & -> & _)%list_elem_of_fmap (i & [=] & _)%list_elem_of_fmap.
  - apply (NoDup_fmap_2 KMaint), NoDup_seq.
Qed.

Lemma length_filter_remove {A} `{EqDecision A} (l : list A) (x : A) :
  NoDup l → x ∈ l →
  S (length (filter (λ y, y ≠ x) l)) = length l.
Proof.
  induction l as [|a l IH]; intros Hnd Hx; [by apply elem_of_nil in Hx |].
  apply NoDup_cons in Hnd as [Ha Hnd].
  rewrite filter_cons. destruct (decide (a = x)) as [-> | Hne].
  - rewrite decide_False by (intros Hn; by apply Hn). simpl. f_equal.
    clear IH Hx. induction l as [|b l IH]; [reflexivity |].
    apply NoDup_cons in Hnd as [_ Hnd].
    rewrite filter_cons, decide_True; simpl.
    + f_equal. apply IH; [set_solver | exact Hnd].
    + intros ->. apply Ha. by left.
  - rewrite decide_True by exact Hne. simpl. f_equal. apply IH; [exact Hnd |].
    apply elem_of_cons in Hx as [-> | Hx]; [done | exact Hx].
Qed.

Section Interrupts.
Context {M : Type} `{RepairManager M}.
Implicit Types (w : World M).

(** X8.  [interrupt_processes] called by one of the cable's own
    processes returns without raising (the RuntimeError of the
    self-interrupt is swallowed), schedules one interrupt for each of
    the other processes, in the order of the process table, none for the
    caller, and leaves the rest of the state as it was. *)
Theorem interrupt_processes_spares_caller w e c k0 :
  cables w !! e = Some c →
  NoDup (processes c) →
  active w = Some (e, k0) →
  k0 ∈ processes c →
  ∃ t, interrupt_processes e w = (inr tt, with_trace w (trace w ++ t)) ∧
       t = map (λ k, EInterrupt (e, k)) (filter (λ k, k ≠ k0) (processes c)) ∧
       (EInterrupt (e, k0) ∉ t) ∧
       S (length t) = length (processes c).
Proof.
  intros Hc Hnd Hact Hk0.
  rewrite (interrupt_processes_run w e c Hc), Hact.
  eexists. split; [reflexivity |].
  assert (Hfilter : interrupts_of (Some (e, k0)) e (processes c) =
            map (λ k, EInterrupt (e, k))
              (filter (λ k, k ≠ k0) (processes c))).
  { unfold interrupts_of. f_equal. apply list_filter_iff.
    intros k. split.
    - intros Hne ->. by apply Hne.
    - intros Hne [= ->]. by apply Hne. }
  rewrite Hfilter. split; [reflexivity |]. split.
  - intros (k & [= <-] & Hk)%list_elem_of_fmap.
    apply list_elem_of_filter in Hk as [Hne _]. by apply Hne.
  - rewrite length_map. by apply length_filter_remove.
Qed.

(** X9.  Called by a process of another cable (or from outside any
    process), [interrupt_processes] interrupts every process of the
    cable, each once when the keys are distinct. *)
Theorem interrupt_processes_from_outside w e c :
  cables w !! e = Some c →
  (∀ k, active w ≠ Some (e, k)) →
  interrupt_processes e w =
  (inr tt,
   with_trace w (trace w ++ map (λ k, EInterrupt (e, k)) (processes c))).
Proof.
  intros Hc Hact.
  rewrite (interrupt_processes_run w e c Hc).
  unfold interrupts_of.
  replace (filter (λ k, active w ≠ Some (e, k)) (processes c))
    with (processes c); [reflexivity |].
  induction (processes c) as [|k ks IH]; [reflexivity |].
  rewrite filter_cons, decide_True by apply Hact. by rewrite <- IH.
Qed.

End Interrupts.

Section ProcessTable.
Context {M : Type} `{RepairManager M}.
Implicit Types w : World M.

(** X5.  The processes of a constructed cable: one for each failure of
    its data, under the failure's level, followed by one for each
    maintenance task, under the task's position; their keys differ when
    the levels of the failures do. *)
Theorem Cable_init_processes ct st en data name w c w' :
  Cable_init ct st en data name w = (inr c, w') →
  processes c =
    map (λ lf, KLevel lf.1) (failures data) ++
    map KMaint (seq 0 (length (maintenance data))) ∧
  length (processes c) =
    (length (failures data) + length (maintenance data))%nat ∧
  (NoDup (map fst (failures data)) → NoDup (processes c)).
Proof.
  intros Hinit.
  assert (Hp : processes c = create_processes data).
  { revert Hinit. unfold Cable_init, bind, graph_node, windfarm_system.
    destruct (adj (graph w) st); [| discriminate].
    destruct (systems w !! st); [| discriminate].
    destruct (_ || _); [| discriminate]. unfold ret at 1.
    destruct (dfs_successors (graph w) en) as [es| |]; try discriminate.
    simpl.
    destruct (edge_dfs (graph w) en) as [ecs| |]; try discriminate.
    simpl. by intros [= <- <-]. }
  rewrite Hp. split; [reflexivity |]. split.
  - unfold create_processes.
    by rewrite length_app, !length_map, length_seq.
  - apply NoDup_create_processes.
Qed.

End ProcessTable.

(** ** The edge traversal *)

Section EdgeSearch.
Variable G : DiGraph.

Lemma edge_dfs_enter_inv source s current_node stack' s1 :
  edge_search_inv G source s →
  stack s = current_node :: stack' →
  edge_dfs_enter G s current_node = Some s1 →
  edge_search_inv G source s1 ∧ stack s1 = stack s ∧
  visited_edges s1 = visited_edges s ∧ current_node ∈ visited_nodes s1.
Proof.
  intros (J0 & J1 & J2 & J3 & J4) Hstack. unfold edge_dfs_enter.
  case_bool_decide as Hvis.
  { intros [= <-].
    split; [exact (conj J0 (conj J1 (conj J2 (conj J3 J4)))) |].
    by repeat split. }
  unfold edges_from. destruct (adj G current_node) as [vs|] eqn:Hvs;
    [| discriminate].
  simpl. intros [= <-]. simpl.
  split; [| split; [reflexivity | split; [reflexivity | by left]]].
  split; [| split; [| split; [| split]]]; simpl.
  - destruct J0 as [J0 | J0]; [left; by right | by right].
  - intros n [Hn | [-> | Hn]%elem_of_cons]; [by apply J1; left | |
                                               by apply J1; right].
    apply J1. left. rewrite Hstack. by left.
  - intros k it e. rewrite dict_get_set. case_decide as Hk.
    + intros [= <-] (v & -> & Hv)%list_elem_of_fmap. subst k. simpl.
      split; [reflexivity |]. by exists vs.
    + apply J2.
  - intros k Hk. rewrite dict_get_set. case_decide as Hck.
    + subst k. eexists. split; [reflexivity |].
      split; [intros _; rewrite Hstack; by left |].
      intros b (vs' & Hvs' & Hb). right.
      apply list_elem_of_fmap. exists b. split; [reflexivity |]. congruence.
    + apply elem_of_cons in Hk as [-> | Hk]; [done |]. by apply J3.
  - intros e He. destruct (J4 e He) as [Hv | Hs]; [left; by right | by right].
Qed.

Lemma edge_dfs_loop_spec source fuel : ∀ s es,
  edge_search_inv G source s →
  edge_dfs_loop fuel G s = Done es →
  NoDup es ∧
  (∀ e, e ∈ es →
     (e ∉ visited_edges s) ∧ rtc (has_edge G) source e.1 ∧
     has_edge G e.1 e.2) ∧
  (∀ a b, rtc (has_edge G) source a → has_edge G a b →
     (a, b) ∈ visited_edges s ∨ (a, b) ∈ es).
Proof.
  induction fuel as [|fuel IH]; intros s es Hinv; [discriminate |].
  simpl. destruct (stack s) as [|current_node stack'] eqn:Hstack.
  { (* the search is over *)
    intros [= <-]. destruct Hinv as (J0 & J1 & J2 & J3 & J4).
    rewrite Hstack in *.
    split; [constructor |]. split; [by intros e Hn%elem_of_nil |].
    assert (Hclosed : ∀ a, rtc (has_edge G) source a → a ∈ visited_nodes s).
    { intros a Ha. revert a Ha. apply (rtc_ind_r (λ a, a ∈ visited_nodes s)).
      - destruct J0 as [J0 | J0%elem_of_nil]; done.
      - intros a b _ Hab Ha.
        destruct (J3 a Ha) as (it & Hit & Hstk & Hall).
        destruct it as [|e it].
        + destruct (Hall b Hab) as [Hve | Hn%elem_of_nil]; [| done].
          destruct (J4 _ Hve) as [Hv | Hn%elem_of_nil]; done.
        + exfalso. assert (a ∈ []) as Hn%elem_of_nil by (by apply Hstk).
          done. }
    intros a b Ha Hab. left.
    destruct (J3 a (Hclosed a Ha)) as (it & Hit & Hstk & Hall).
    destruct it as [|e it].
    - destruct (Hall b Hab) as [Hve | Hn%elem_of_nil]; done.
    - exfalso. assert (a ∈ []) as Hn%elem_of_nil by (by apply Hstk). done. }
  destruct (edge_dfs_enter G s current_node) as [s1|] eqn:Henter;
    [| discriminate].
  destruct (edge_dfs_enter_inv source s current_node stack' s1 Hinv Hstack
              Henter) as ((J0 & J1 & J2 & J3 & J4) & Hstack1 & Hve1 & Hcur).
  rewrite Hstack in Hstack1.
  destruct (J3 current_node Hcur) as (it & Hit & Hstk & Hall).
  rewrite Hit. rewrite <- Hve1.
  destruct it as [|e rest].
  - (* the iterator is exhausted: pop *)
    intros Hrun. apply IH in Hrun; [exact Hrun |].
    split; [| split; [| split; [| split]]]; simpl.
    + destruct J0 as [J0 | J0]; [by left |].
      rewrite Hstack1 in J0. apply elem_of_cons in J0 as [-> | J0];
        [by left | by right].
    + intros n [Hn | Hn]; apply J1; [left; rewrite Hstack1; by right
                                    | by right].
    + exact J2.
    + intros k Hk. destruct (J3 k Hk) as (it & Hit' & Hstk' & Hall').
      exists it. split; [exact Hit' |]. split; [| exact Hall'].
      intros Hne. specialize (Hstk' Hne). rewrite Hstack1 in Hstk'.
      apply elem_of_cons in Hstk' as [-> | Hin]; [| exact Hin].
      rewrite Hit in Hit'. by injection Hit' as <-.
    + intros e He. destruct (J4 e He) as [Hv | Hs]; [by left |].
      rewrite Hstack1 in Hs. apply elem_of_cons in Hs as [-> | Hs];
        [by left | by right].
  - destruct (J2 current_node (e :: rest) e Hit) as [He1 He2]; [by left |].
    assert (Hrest : ∀ k it' e',
              dict_get (dict_set (edges s1) current_node rest) k = Some it' →
              e' ∈ it' → e'.1 = k ∧ has_edge G k e'.2).
    { intros k it' e'. rewrite dict_get_set. case_decide as Hk.
      - intros [= <-] He'. subst k.
        apply (J2 current_node (e :: rest)); [exact Hit | by right].
      - apply J2. }
    case_bool_decide as Hseen.
    + (* an edge yielded before *)
      intros Hrun. apply IH in Hrun; [exact Hrun |].
      split; [| split; [| split; [| split]]]; simpl.
      * exact J0.
      * exact J1.
      * exact Hrest.
      * intros k Hk. rewrite dict_get_set. case_decide as Hck.
        -- subst k. exists rest. split; [reflexivity |].
           split; [intros _; rewrite Hstack1; by left |].
           intros b Hb. destruct (Hall b Hb) as [Hv | [<- | Hr]%elem_of_cons];
             [by left | by left | by right].
        -- by apply J3.
      * exact J4.
    + (* a new edge *)
      destruct (edge_dfs_loop fuel G _) as [es'| |] eqn:Hloop;
        try discriminate.
      simpl. intros [= <-].
      pose proof Hloop as Hspec. apply IH in Hspec; last first.
      { split; [| split; [| split; [| split]]]; simpl.
        - destruct J0 as [J0 | J0]; [by left | right; by right].
        - intros n [[-> | Hn]%elem_of_cons | Hn].
          + eapply rtc_r; [apply J1; right; exact Hcur | exact He2].
          + apply J1. by left.
          + apply J1. by right.
        - exact Hrest.
        - intros k Hk. rewrite dict_get_set. case_decide as Hck.
          + subst k. exists rest. split; [reflexivity |].
            split; [intros _; right; rewrite Hstack1; by left |].
            intros b Hb.
            destruct (Hall b Hb) as [Hv | [<- | Hr]%elem_of_cons];
              [left; by right | left; by left | by right].
          + destruct (J3 k Hk) as (it' & Hit' & Hstk' & Hall'').
            exists it'. split; [exact Hit' |].
            split; [intros Hne; right; by apply Hstk' |].
            intros b Hb. destruct (Hall'' b Hb); [left; by right | by right].
        - intros e' [-> | He']%elem_of_cons; [right; by left |].
          destruct (J4 e' He') as [Hv | Hs]; [by left | right; by right]. }
      destruct Hspec as (Hnd & Hnew & Hall'). simpl in Hnew, Hall'.
      split; [| split].
      * constructor; [| exact Hnd]. intros Hin.
        destruct (Hnew e Hin) as [Hnot _]. apply Hnot. by left.
      * intros e' [-> | He']%elem_of_cons.
        -- split; [exact Hseen |]. rewrite He1.
           split; [apply J1; by right | exact He2].
        -- destruct (Hnew e' He') as (Hnot & Hr & Hedge).
           split; [| by split]. intros Hin. apply Hnot. by right.
      * intros a b Ha Hab.
        destruct (Hall' a b Ha Hab) as [[<- | Hv]%elem_of_cons | Hin].
        -- right. by left.
        -- by left.
        -- right. by right.
Qed.

Lemma edge_dfs_spec source es :
  edge_dfs G source = Done es →
  NoDup es ∧
  ∀ a b, (a, b) ∈ es ↔ rtc (has_edge G) source a ∧ has_edge G a b.
Proof.
  unfold edge_dfs. intros Hrun.
  apply (edge_dfs_loop_spec source) in Hrun; last first.
  { split; [right; by left |]. split; [| split; [| split]]; simpl.
    - intros n [->%list_elem_of_singleton | Hn%elem_of_nil]; [reflexivity | done].
    - intros k it e [=].
    - intros k Hn%elem_of_nil. done.
    - intros e Hn%elem_of_nil. done. }
  destruct Hrun as (Hnd & Hnew & Hall). simpl in Hnew, Hall.
  split; [exact Hnd |]. intros a b. split.
  - intros Hin. destruct (Hnew _ Hin) as (_ & Hr & He). by split.
  - intros [Ha Hab]. destruct (Hall a b Ha Hab) as [Hn%elem_of_nil | Hin]; done.
Qed.

End EdgeSearch.

Section UpstreamTopology.
Context {M : Type} `{RepairManager M}.
Implicit Types w : World M.

Lemma Cable_init_upstream ct st en data name w c w' :
  Cable_init ct st en data name w = (inr c, w') →
  (∀ v, v ∈ upstream_nodes c ↔ rtc (has_edge (graph w)) en v) ∧
  NoDup (upstream_cables c) ∧
  (∀ a b, (a, b) ∈ upstream_cables c ↔
     rtc (has_edge (graph w)) en a ∧ has_edge (graph w) a b).
Proof.
  intros Hinit.
  destruct (Cable_init_returns _ _ _ _ _ _ _ _ Hinit)
    as (es & ecs & Hes & Hecs & Hnodes & Hcables & _).
  destruct (dfs_edges_spec (graph w) en es Hes) as [_ Hreach].
  destruct (edge_dfs_spec (graph w) en ecs Hecs) as [Hnd Hedges].
  rewrite chain_upstream_values in Hnodes.
  split; [| rewrite Hcables; by split].
  intros v. rewrite <- Hreach, Hnodes.
  by rewrite (group_edges_values es).
Qed.

(** X6.  The [upstream_cables] of a constructed cable are the edges of
    the farm graph that leave a node reachable from the cable's end
    node, each of them once. *)
Theorem upstream_cables_are_the_reachable_edges ct st en data name w c w' :
  Cable_init ct st en data name w = (inr c, w') →
  NoDup (upstream_cables c) ∧
  ∀ a b, (a, b) ∈ upstream_cables c ↔
    rtc (has_edge (graph w)) en a ∧ has_edge (graph w) a b.
Proof.
  intros Hinit.
  by destruct (Cable_init_upstream _ _ _ _ _ _ _ _ Hinit) as (_ & ? & ?).
Qed.

(** X7.  The two snapshots of a constructed cable fit together: both
    ends of every upstream cable are upstream nodes, every upstream
    node other than the end node is the far end of an upstream cable,
    and the end node is an upstream node. *)
Theorem upstream_snapshots_agree ct st en data name w c w' :
  Cable_init ct st en data name w = (inr c, w') →
  en ∈ upstream_nodes c ∧
  (∀ a b, (a, b) ∈ upstream_cables c →
     a ∈ upstream_nodes c ∧ b ∈ upstream_nodes c) ∧
  (∀ v, v ∈ upstream_nodes c → v ≠ en →
     ∃ a, a ∈ upstream_nodes c ∧ (a, v) ∈ upstream_cables c).
Proof.
  intros Hinit.
  destruct (Cable_init_upstream _ _ _ _ _ _ _ _ Hinit)
    as (Hnodes & _ & Hedges).
  split; [by apply Hnodes |]. split.
  - intros a b [Ha Hab]%Hedges. split; apply Hnodes; [exact Ha |].
    eapply rtc_r; eauto.
  - intros v Hv%Hnodes Hne.
    apply rtc_inv_r in Hv as [-> | (a & Ha & Hav)]; [done |].
    exists a. split; [by apply Hnodes | by apply Hedges].
Qed.

End UpstreamTopology.

(** ** More on the timers *)

Section TimersMore.
Context {M : Type} `{RepairManager M}.
Implicit Types (w : World M) (l : locals) (c : Cable).

(** X10.  While [broken] is pending (blocked), an interrupt at the gate
    or in the countdown never raises, in either timer and whatever the
    locals hold ([start] may be unbound): the handler sets
    [hours_to_next] to 0 and the timer goes on with its outer loop. *)
Theorem interrupt_while_broken_restarts fuel self failure m p l w c :
  cables w !! self = Some c →
  triggered w (broken c) = false →
  p ≠ AtHorizon →
  run_single_failure fuel self failure p Interrupt l w =
    failure_loop fuel self failure l w ∧
  run_single_maintenance fuel self m p Interrupt l w =
    maintenance_loop fuel self m l w.
Proof.
  intros Hc Hb Hp.
  assert (Hon : on_interrupt self l w = inr (set_hours_to_next l (Some 0%Q)))
    by (unfold on_interrupt; by rewrite Hc, Hb).
  destruct p; [done | |];
    unfold run_single_failure, run_single_maintenance; rewrite Hon;
    unfold while_hours; simpl;
    by rewrite failure_loop_forgets_hours, maintenance_loop_forgets_hours.
Qed.

(** X11.  Two interrupts with [broken] clear, the first in a countdown
    of [h] hours begun at [s], the second while the timer waits at the
    gate again: the second handler still measures from [s], so the
    hours between [s] and the first interrupt are subtracted twice. *)
Theorem interrupt_at_gate_subtracts_again fuel self failure l w1 w2 c1 c2 h s :
  cables w1 !! self = Some c1 →
  cables w2 !! self = Some c2 →
  triggered w1 (broken c1) = true →
  triggered w2 (broken c2) = true →
  hours_to_next l = Some h →
  start l = Some s →
  ((now w1 - s) + (now w2 - s) < h)%Q →
  (s <= now w2)%Q →
  ∃ l1 y1 y2,
    run_single_failure fuel self failure AtCountdown Interrupt l w1 =
      Suspended AtGate y1 l1 w1 ∧
    run_single_failure fuel self failure AtGate Interrupt l1 w2 =
      Suspended AtGate y2
        (set_hours_to_next l1 (Some (h - (now w1 - s) - (now w2 - s))%Q)) w2.
Proof.
  intros Hc1 Hc2 Hb1 Hb2 Hh Hs Hlt Hle.
  assert (Hpos : Qlt_bool 0 (h - (now w1 - s)) = true)
    by (apply Qlt_bool_iff; lra).
  assert (Hpos2 : Qlt_bool 0 (h - (now w1 - s) - (now w2 - s)) = true)
    by (apply Qlt_bool_iff; lra).
  eexists _, _, _. split.
  - unfold run_single_failure, on_interrupt. rewrite Hc1, Hb1, Hs, Hh. simpl.
    unfold while_hours, gate. simpl. rewrite Hpos, Hc1. reflexivity.
  - unfold run_single_failure, on_interrupt. rewrite Hc2, Hb2. simpl.
    rewrite Hs. unfold while_hours, gate. simpl. rewrite Hpos2, Hc2.
    reflexivity.
Qed.

(** X13.  A maintenance timer of frequency zero that is interrupted in
    its horizon wait waits again, for the hours left until the end of
    the horizon: the [remainder] that the handler computes plays no
    part. *)
Theorem maintenance_horizon_interrupt_waits_on fuel self m l w r :
  (frequency m == 0)%Q →
  hours_to_next l = Some (frequency m) →
  remainder l = Some r →
  (now w <= max_run_time w)%Q →
  ∃ l', run_single_maintenance (S fuel) self m AtHorizon Interrupt l w =
          Suspended AtHorizon (Timeout (max_run_time w - now w)) l' w ∧
        hours_to_next l' = Some (frequency m).
Proof.
  intros Hf Hh Hr Hnow.
  unfold run_single_maintenance, on_horizon_interrupt. rewrite Hr.
  unfold while_hours. simpl. rewrite Hh.
  assert (Hz : Qlt_bool 0 (frequency m) = false)
    by (apply Qlt_bool_false; lra).
  rewrite Hz. apply Qeq_bool_iff in Hf. rewrite Hf.
  unfold env_timeout.
  assert (Hn : Qlt_bool (max_run_time w - now w) 0 = false)
    by (apply Qlt_bool_false; lra).
  rewrite Hn. eexists. split; reflexivity.
Qed.

(** X14.  No run of the maintenance timer, from its start or from any
    of its [yield]s, with either signal and whatever its outcome,
    touches a cable, a system, an event or the clock: it changes the
    repair manager and the calls made, nothing else. *)
Theorem maintenance_touches_only_manager fuel self m w :
  (∀ p sig l,
     let w' := outcome_world (run_single_maintenance fuel self m p sig l w) in
     cables w' = cables w ∧ systems w' = systems w ∧
     events w' = events w ∧ now w' = now w ∧ active w' = active w) ∧
  outcome_world (start_single_maintenance fuel self m w) = w.
Proof.
  split; [| apply maintenance_loop_world].
  intros p sig l w'. unfold w'.
  destruct (run_single_maintenance_world fuel self m p sig l w)
    as [-> | (_ & _ & ->)]; [done |].
  unfold maintenance_due, bind, windfarm_cable, windfarm_system.
  destruct (cables w !! self) as [c|]; [| done]. simpl.
  destruct (systems w !! system c) as [s|]; [| done]. simpl.
  unfold manager_register, get_request_id. simpl.
  destruct (request_id _); done.
Qed.

(** X12.  A timer that is interrupted at the gate before its first
    countdown, the cable not being broken: the handler reads [start],
    which is bound only after the gate, and the generator ends with an
    UnboundLocalError. *)
Theorem interrupt_before_first_countdown fuel fuel' self failure m w c0 h :
  cables w !! self = Some c0 →
  hours_to_next_failure failure 0 = Some h →
  (0 < h)%Q →
  (0 < frequency m)%Q →
  ∃ y lf lm,
    start_single_failure (S fuel) self failure w = Suspended AtGate y lf w ∧
    start_single_maintenance (S fuel) self m w = Suspended AtGate y lm w ∧
    ∀ w2 c, cables w2 !! self = Some c → triggered w2 (broken c) = true →
      run_single_failure fuel' self failure AtGate Interrupt lf w2 =
        Raised (UnboundLocalError "start") w2 ∧
      run_single_maintenance fuel' self m AtGate Interrupt lm w2 =
        Raised (UnboundLocalError "start") w2.
Proof.
  intros Hc Hh Hpos Hf.
  assert (Hp : Qlt_bool 0 h = true) by (apply Qlt_bool_iff; lra).
  assert (Hpf : Qlt_bool 0 (frequency m) = true) by (apply Qlt_bool_iff; lra).
  assert (Hnz : Qeq_bool (frequency m) 0 = false).
  { destruct (Qeq_bool _ _) eqn:E; [| done]. apply Qeq_bool_iff in E. lra. }
  eexists _, _, _. split; [| split].
  - unfold start_single_failure. cbn [failure_loop]. cbn [draws locals0].
    rewrite Hh. cbn [hours_to_next next_draw]. unfold failure_tail.
    cbn [hours_to_next next_draw]. unfold while_hours.
    cbn [hours_to_next next_draw]. rewrite Hp. unfold gate. rewrite Hc.
    reflexivity.
  - unfold start_single_maintenance. cbn [maintenance_loop]. rewrite Hnz.
    unfold while_hours. cbn [hours_to_next set_hours_to_next]. rewrite Hpf.
    unfold gate. rewrite Hc. reflexivity.
  - intros w2 c Hc2 Hbr. cbn [run_single_failure run_single_maintenance].
    unfold on_interrupt. rewrite Hc2, Hbr. split; reflexivity.
Qed.



End TimersMore.

(** ** Timers left alone *)

Section Periodic.
Context {M : Type} `{RepairManager M}.
Implicit Types w : World M.

Lemma maintenance_due_run self m w c s :
  cables w !! self = Some c →
  systems w !! system c = Some s →
  let q := maintenance_request c s m in
  let mr := register_request (manager w) q in
  ∃ entry,
    maintenance_due self m w =
    (inr tt,
     with_trace (with_manager w (submit_request mr.1 mr.2))
       (trace w ++ [ERegister q; ELog entry; ESubmit mr.2])).
Proof.
  intros Hc Hs q mr.
  destruct (register_request_id (manager w) q) as [rid Hrid]. fold mr in Hrid.
  eexists. unfold maintenance_due, bind, windfarm_cable, windfarm_system.
  rewrite Hc, Hs. unfold manager_register. simpl. fold q mr.
  unfold get_request_id. rewrite Hrid. unfold ret, log_action, emit,
    manager_submit. simpl. rewrite <- !app_assoc. reflexivity.
Qed.

Lemma inject_succ n :
  (inject_Z (Z.of_nat (S n)) == inject_Z (Z.of_nat n) + 1)%Q.
Proof.
  rewrite Nat2Z.inj_succ. unfold Z.succ. rewrite inject_Z_plus. reflexivity.
Qed.

Lemma maintenance_cycles fuel me self m c s n : ∀ l w,
  cables w !! self = Some c →
  systems w !! system c = Some s →
  (0 < frequency m)%Q →
  triggered w (servicing c) = true →
  triggered w (downstream_failure c) = true →
  triggered w (broken c) = true →
  hours_to_next l = Some (frequency m) →
  let y := AllOf (servicing c) (downstream_failure c) (broken c) in
  ∃ l' w',
    uninterrupted (2 * n) me (run_single_maintenance (S fuel) self m)
      (Suspended AtGate y l w) = Suspended AtGate y l' w' ∧
    cables w' = cables w ∧ systems w' = systems w ∧ events w' = events w ∧
    (now w' == now w + inject_Z (Z.of_nat n) * frequency m)%Q ∧
    filter is_register (trace w') =
      filter is_register (trace w) ++
      replicate n (ERegister (maintenance_request c s m)) ∧
    length (filter is_submit (trace w')) =
      (length (filter is_submit (trace w)) + n)%nat ∧
    length (items (manager w')) = (length (items (manager w)) + n)%nat.
Proof.
  induction n as [|n IH]; intros l w Hc Hs Hf Hsv Hdf Hbr Hh y.
  - exists l, w. simpl. rewrite !app_nil_r, !Nat.add_0_r.
    repeat split; try reflexivity.
    change (inject_Z (Z.of_nat 0)) with 0%Q. lra.
  - replace (2 * S n)%nat with (S (S (2 * n))) by lia.
    cbn [uninterrupted]. unfold y at 1. cbn [advance].
    replace (triggered w (servicing c)) with true.
    replace (triggered w (downstream_failure c)) with true.
    replace (triggered w (broken c)) with true.
    cbn [andb run_single_maintenance]. rewrite Hh.
    unfold env_timeout.
    assert (Hnn : Qlt_bool (frequency m) 0 = false)
      by (apply Qlt_bool_false; lra).
    rewrite Hnn. cbn [advance].
    set (w1 := with_active (with_now (with_active w (Some me))
                  (now (with_active w (Some me)) + frequency m)%Q) (Some me)).
    cbn [run_single_maintenance].
    destruct (maintenance_due_run self m w1 c s Hc Hs) as [entry Hdue].
    rewrite Hdue. clear Hdue.
    set (w2 := with_trace _ _).
    unfold while_hours at 1. cbn [hours_to_next set_hours_to_next].
    replace (Qlt_bool 0 0) with false by reflexivity.
    cbn [maintenance_loop].
    assert (Hnz : Qeq_bool (frequency m) 0 = false).
    { destruct (Qeq_bool _ _) eqn:E; [| done].
      apply Qeq_bool_iff in E. lra. }
    rewrite Hnz. unfold while_hours. cbn [hours_to_next set_hours_to_next].
    assert (Hpos : Qlt_bool 0 (frequency m) = true)
      by (apply Qlt_bool_iff; lra).
    rewrite Hpos. unfold gate.
    replace (cables w2 !! self) with (Some c) by (symmetry; exact Hc).
    fold y.
    match goal with
    | |- ∃ _ _, uninterrupted _ _ _ (Suspended _ _ ?l2 _) = _ ∧ _ =>
      destruct (IH l2 w2 Hc Hs Hf Hsv Hdf Hbr eq_refl)
        as (l' & w' & Hrun & Hc' & Hs' & He' & Hn' & Hr' & Hsub' & Hit')
    end.
    exists l', w'. split; [exact Hrun |].
    split; [exact Hc' |]. split; [exact Hs' |]. split; [exact He' |].
    split; [| split; [| split]].
    + rewrite Hn', inject_succ. simpl. lra.
    + rewrite Hr'. simpl. rewrite !filter_app. simpl.
      rewrite <- !app_assoc. reflexivity.
    + rewrite Hsub'. simpl. rewrite !filter_app, !length_app. simpl. lia.
    + rewrite Hit'. simpl. rewrite submit_items, length_app, register_items.
      simpl. lia.
Qed.

(** X16.  A maintenance task of positive frequency on a cable whose
    three signals are and stay triggered, run without interrupts from
    its start: after [2 n] resumptions the timer waits at the gate
    again, [n] times the frequency has passed, and it has registered and
    submitted [n] requests, each the request built from the cable and
    its system, and the queue is longer by [n]; the cables, the systems
    and the events are as they were. *)
Theorem maintenance_repeats_every_frequency n fuel me self m w c s :
  cables w !! self = Some c →
  systems w !! system c = Some s →
  (0 < frequency m)%Q →
  triggered w (servicing c) = true →
  triggered w (downstream_failure c) = true →
  triggered w (broken c) = true →
  ∃ l' w',
    uninterrupted (2 * n) me (run_single_maintenance (S fuel) self m)
      (start_single_maintenance (S fuel) self m w) =
      Suspended AtGate
        (AllOf (servicing c) (downstream_failure c) (broken c)) l' w' ∧
    cables w' = cables w ∧ systems w' = systems w ∧ events w' = events w ∧
    (now w' == now w + inject_Z (Z.of_nat n) * frequency m)%Q ∧
    filter is_register (trace w') =
      filter is_register (trace w) ++
      replicate n (ERegister (maintenance_request c s m)) ∧
    length (filter is_submit (trace w')) =
      (length (filter is_submit (trace w)) + n)%nat ∧
    length (items (manager w')) = (length (items (manager w)) + n)%nat.
Proof.
  intros Hc Hs Hf Hsv Hdf Hbr.
  assert (Hstart : start_single_maintenance (S fuel) self m w =
            Suspended AtGate
              (AllOf (servicing c) (downstream_failure c) (broken c))
              (set_hours_to_next locals0 (Some (frequency m))) w).
  { unfold start_single_maintenance. cbn [maintenance_loop].
    assert (Hnz : Qeq_bool (frequency m) 0 = false).
    { destruct (Qeq_bool _ _) eqn:E; [| done].
      apply Qeq_bool_iff in E. lra. }
    rewrite Hnz. unfold while_hours. cbn [hours_to_next set_hours_to_next].
    assert (Hpos : Qlt_bool 0 (frequency m) = true)
      by (apply Qlt_bool_iff; lra).
    rewrite Hpos. unfold gate. by rewrite Hc. }
  rewrite Hstart.
  by apply (maintenance_cycles fuel me self m c s n).
Qed.

End Periodic.

Section Compounding.
Context {M : Type} `{RepairManager M}.
Implicit Types w : World M.




End Compounding.

(** ** Timers held at the gate *)

Section Held.
Context {M : Type} `{RepairManager M}.
Implicit Types w : World M.

(** What a failure of total reduction leaves of the cable it strikes. *)
Lemma catastrophic_failure_run self failure w c :
  cables w !! self = Some c →
  (operation_reduction failure == 1)%Q →
  is_Some (systems w !! system c) →
  (∀ n, n ∈ upstream_nodes c → is_Some (systems w !! n)) →
  (∀ e, e ∈ upstream_cables c → is_Some (cables w !! e)) →
  ∃ w' c',
    failure_occurs self failure w = (inr tt, w') ∧
    cables w' !! self = Some c' ∧
    same_cable (struck failure (length (events w)) c) c' ∧
    events w' = events w ++
      replicate (1 + length (upstream_nodes c) + length (upstream_cables c))
        false.
Proof.
  intros Hc Hr Hsys Hnodes Hedges.
  set (c1 := set_operating_level c
               (operating_level c * (1 - operation_reduction failure))%Q).
  set (e0 := length (events w)).
  set (mr := register_request (manager w) (failure_request c1 failure)).
  destruct (register_request_id (manager w) (failure_request c1 failure))
    as [rid Hrid]. fold mr in Hrid.
  set (cs4 := alter (struck failure e0) self (cables w)).
  assert (Hcs4 : cs4 !! self = Some (struck failure e0 c))
    by (unfold cs4; rewrite lookup_alter_eq, Hc; reflexivity).
  set (w6 :=
    {| now := now w; max_run_time := max_run_time w;
       events := events w ++ [false]; graph := graph w;
       systems := systems w; cables := cs4;
       manager := purge_subassembly_requests mr.1 (id c) (id c) [rid];
       active := active w;
       trace := ((trace w ++ [ERegister (failure_request c1 failure)]) ++
                 [EPurge (id c) (id c) [rid]]) ++
                interrupts_of (active w) self (processes c) |}).
  destruct (stop_all_upstream_processes_run w6 self (struck failure e0 c)
              (assigned failure mr.2) Hcs4) as (w7 & w8 & Estop & Hw7 & Hw8).
  { exact Hnodes. }
  { intros e He. unfold w6, cs4. simpl.
    destruct (Hedges e He) as [ce Hce].
    destruct (decide (self = e)) as [<- | Hne].
    - rewrite lookup_alter_eq, Hc. by eexists.
    - rewrite lookup_alter_ne by done. by eexists. }
  destruct Hw7 as (Hc7 & Hm7 & Ha7 & He7 & Ht7 & Hs7).
  destruct Hw8 as (Hs8 & Hm8 & Ha8 & He8 & Ht8 & Hc8).
  pose proof (Hc8 self) as Hself. rewrite Hc7 in Hself. simpl in Hself.
  rewrite Hcs4 in Hself.
  inversion Hself as [? c3 [Hsame3 _] E3 E4 |]; subst. symmetry in E4.
  assert (Hsys3 : system c3 = system c) by (rewrite Hsame3; reflexivity).
  destruct Hsys as [s Hs].
  pose proof (Hs7 (system c)) as Hsy. simpl in Hsy. rewrite Hs in Hsy.
  inversion Hsy as [? s3 _ E5 E6 |]; subst. symmetry in E6.
  rewrite <- Hs8 in E6.
  eexists _, c3. split; [| split; [| split]].
  - unfold failure_occurs, bind, update_cable, windfarm_cable. simpl.
    rewrite lookup_alter_eq, Hc. simpl. fold c1.
    unfold manager_register. simpl. fold mr.
    apply Qeq_bool_iff in Hr. rewrite Hr.
    unfold new_event, get_request_id. simpl.
    rewrite lookup_alter_eq, lookup_alter_eq, Hc. simpl.
    rewrite Hrid. unfold ret, manager_purge. simpl.
    erewrite interrupt_processes_run; last first.
    { simpl. rewrite lookup_alter_eq, lookup_alter_eq, Hc. reflexivity. }
    simpl.
    replace (with_trace _ _) with w6; last first.
    { unfold w6, with_trace, cs4. simpl. f_equal.
      apply map_eq. intros e'.
      destruct (decide (self = e')) as [<- | Hne].
      - by rewrite !lookup_alter_eq, Hc.
      - by rewrite !lookup_alter_ne. }
    rewrite Estop, E4. unfold windfarm_system. rewrite Hsys3, E6.
    unfold log_action, emit, manager_submit. simpl. reflexivity.
  - exact E4.
  - exact Hsame3.
  - simpl. rewrite He8, He7. simpl. rewrite <- !app_assoc.
    rewrite replicate_add. reflexivity.
Qed.

Lemma held_forever me (resume : point → signal → locals → World M → outcome M)
    p y l w n :
  advance me y w = None →
  uninterrupted n me resume (Suspended p y l w) = Suspended p y l w.
Proof. intros Hadv. destruct n; simpl; [reflexivity |]. by rewrite Hadv. Qed.

(** X18.  After a failure of total reduction the timer that raised it
    draws its next hours and stops at the gate, where the cable's new
    [broken] event is pending: the scheduler cannot resume it, however
    long it runs, until that event is triggered from outside. *)
Theorem catastrophic_failure_holds_own_timer fuel self failure l w c h :
  cables w !! self = Some c →
  (operation_reduction failure == 1)%Q →
  is_Some (systems w !! system c) →
  (∀ n, n ∈ upstream_nodes c → is_Some (systems w !! n)) →
  (∀ e, e ∈ upstream_cables c → is_Some (cables w !! e)) →
  hours_to_next_failure failure (draws l) = Some h →
  (0 < h)%Q →
  ∃ c' l' w',
    run_single_failure (S fuel) self failure AtCountdown Resume l w =
      Suspended AtGate
        (AllOf (servicing c) (downstream_failure c') (broken c')) l' w' ∧
    cables w' !! self = Some c' ∧
    broken c' = length (events w) ∧
    triggered w' (broken c') = false ∧
    hours_to_next l' = Some h ∧
    ∀ n me fuel',
      uninterrupted n me (run_single_failure fuel' self failure)
        (Suspended AtGate
           (AllOf (servicing c) (downstream_failure c') (broken c')) l' w') =
      Suspended AtGate
        (AllOf (servicing c) (downstream_failure c') (broken c')) l' w'.
Proof.
  intros Hc Hr Hsys Hnodes Hedges Hh Hpos.
  destruct (catastrophic_failure_run self failure w c Hc Hr Hsys Hnodes Hedges)
    as (w' & c' & Hrun & Hc' & Hsame & Hev).
  assert (Hbr : broken c' = length (events w)) by (rewrite Hsame; reflexivity).
  assert (Hsv : servicing c' = servicing c) by (rewrite Hsame; reflexivity).
  assert (Hpend : triggered w' (broken c') = false).
  { unfold triggered. rewrite Hev, Hbr.
    rewrite lookup_app_r by lia. rewrite Nat.sub_diag. reflexivity. }
  assert (Hp : Qlt_bool 0 h = true) by (apply Qlt_bool_iff; lra).
  eexists c', _, w'. split; [| split; [| split; [| split; [| split]]]].
  - cbn [run_single_failure]. rewrite Hrun.
    unfold while_hours at 1. cbn [hours_to_next set_hours_to_next].
    replace (Qlt_bool 0 0) with false by reflexivity.
    cbn [failure_loop]. cbn [draws set_hours_to_next]. rewrite Hh.
    cbn [hours_to_next next_draw]. unfold failure_tail.
    cbn [hours_to_next next_draw]. unfold while_hours.
    cbn [hours_to_next next_draw]. rewrite Hp. unfold gate.
    rewrite Hc', Hsv. reflexivity.
  - exact Hc'.
  - exact Hbr.
  - exact Hpend.
  - reflexivity.
  - intros n me fuel'. apply held_forever. cbn [advance].
    rewrite Hpend. by rewrite !andb_false_r.
Qed.

End Held.

Section UpstreamHeld.
Context {M : Type} `{RepairManager M}.
Implicit Types w : World M.




End UpstreamHeld.

(** ** Blockage and identity *)

Section Blockage.
Context {M : Type} `{RepairManager M}.
Implicit Types w : World M.

Lemma pending_after_append (ev : list bool) k e :
  default false (ev !! e) = false →
  default false ((ev ++ replicate k false) !! e) = false.
Proof.
  intros He. destruct (decide (e < length ev)%nat) as [Hlt | Hge].
  - by rewrite lookup_app_l.
  - rewrite lookup_app_r by lia.
    destruct (replicate k false !! (e - length ev)%nat) as [b|] eqn:E;
      [| reflexivity].
    apply lookup_replicate in E as [-> _]. reflexivity.
Qed.

Lemma pending_new (ev : list bool) :
  default false ((ev ++ [false]) !! length ev) = false.
Proof.
  rewrite lookup_app_r by lia. by rewrite Nat.sub_diag.
Qed.

Local Instance stays_blocked_preorder : PreOrder (stays_blocked (M:=M)).
Proof.
  split.
  - intros w. split; [exists 0%nat; simpl; by rewrite app_nil_r |].
    unfold still_pending. split.
    + intros e c Hc. exists c. by repeat split.
    + intros n s Hs. by exists s.
  - intros w1 w2 w3 ([k1 E1] & Hc1 & Hs1) ([k2 E2] & Hc2 & Hs2).
    split; [| split].
    + exists (k1 + k2)%nat. by rewrite E2, E1, <- app_assoc, replicate_add.
    + intros e c Hc. destruct (Hc1 e c Hc) as (c2 & Hc' & Hsv & Hb & Hd).
      destruct (Hc2 e c2 Hc') as (c3 & Hc'' & Hsv' & Hb' & Hd').
      exists c3. split; [exact Hc'' |]. split; [congruence |].
      unfold still_pending in *. split; auto.
    + intros n s Hs. destruct (Hs1 n s Hs) as (s2 & Hs' & Hf).
      destruct (Hs2 n s2 Hs') as (s3 & Hs'' & Hf').
      exists s3. split; [exact Hs'' |]. unfold still_pending in *. auto.
Qed.

Lemma stays_blocked_same w w' :
  events w' = events w → cables w' = cables w → systems w' = systems w →
  stays_blocked w w'.
Proof.
  intros Ee Ec Es. split; [exists 0%nat; simpl; by rewrite app_nil_r |].
  unfold still_pending, triggered. rewrite Ee, Ec, Es. split.
  - intros e c Hc. exists c. by repeat split.
  - intros n s Hs. by exists s.
Qed.

Lemma stays_blocked_new_signal w cs ss :
  (∀ e c, cables w !! e = Some c →
     cs !! e = Some c ∨
     cs !! e = Some (set_broken c (length (events w))) ∨
     cs !! e = Some (set_downstream_failure c (length (events w)))) →
  (∀ n s, systems w !! n = Some s →
     ss !! n = Some s ∨
     ss !! n = Some (set_cable_failure s (length (events w)))) →
  stays_blocked w
    (with_systems (with_cables (with_events w (events w ++ [false])) cs) ss).
Proof.
  intros Hcs Hss. split; [by exists 1%nat |].
  unfold still_pending, triggered. simpl. split.
  - intros e c Hc. destruct (Hcs e c Hc) as [-> | [-> | ->]];
      eexists; (split; [reflexivity |]); simpl; repeat split;
      intros; first [apply pending_new | by apply (pending_after_append _ 1)].
  - intros n s Hs. destruct (Hss n s Hs) as [-> | ->];
      eexists; (split; [reflexivity |]); simpl;
      intros; first [apply pending_new | by apply (pending_after_append _ 1)].
Qed.

Lemma alter_cases {K A} `{Countable K} (f : A → A) (k k' : K)
    (m : gmap K A) (x : A) :
  m !! k' = Some x →
  alter f k m !! k' = Some x ∨ alter f k m !! k' = Some (f x).
Proof.
  intros Hx. destruct (decide (k = k')) as [-> | Hne].
  - right. by rewrite lookup_alter_eq, Hx.
  - left. by rewrite lookup_alter_ne.
Qed.

Lemma core_steps_stay_blocked P w w' :
  rtc (core_step P) w w' → stays_blocked w w'.
Proof.
  apply (core_steps_keep (stays_blocked (M:=M))).
  - intros w0 t. by apply stays_blocked_same.
  - intros w0 m. by apply stays_blocked_same.
  - intros w0 e q. split; [exists 0%nat; simpl; by rewrite app_nil_r |].
    unfold still_pending, triggered. simpl. split.
    + intros e' c Hc.
      destruct (alter_cases
                  (λ c, set_operating_level c (operating_level c * q)%Q)
                  e e' (cables w0) c Hc) as [-> | ->];
        eexists; (split; [reflexivity |]); by repeat split.
    + intros n s Hs. by exists s.
  - intros w0 e.
    apply (stays_blocked_new_signal w0
             (alter (λ c, set_broken c (length (events w0))) e (cables w0))
             (systems w0)).
    + intros e' c Hc.
      destruct (alter_cases (λ c, set_broken c (length (events w0)))
                  e e' (cables w0) c Hc) as [-> | ->]; auto.
    + auto.
  - intros w0 e.
    apply (stays_blocked_new_signal w0
             (alter (λ c, set_downstream_failure c (length (events w0))) e
                (cables w0))
             (systems w0)).
    + intros e' c Hc.
      destruct (alter_cases
                  (λ c, set_downstream_failure c (length (events w0)))
                  e e' (cables w0) c Hc) as [-> | ->]; auto.
    + auto.
  - intros w0 n.
    apply (stays_blocked_new_signal w0 (cables w0)
             (alter (λ s, set_cable_failure s (length (events w0))) n
                (systems w0))).
    + auto.
    + intros n' s Hs.
      destruct (alter_cases (λ s, set_cable_failure s (length (events w0)))
                  n n' (systems w0) s Hs) as [-> | ->]; auto.
Qed.

(** X20.  The core never triggers, resets or removes an event: after any
    number of its steps the event store is the old one followed by
    events that are pending. *)
Theorem core_only_adds_pending_events P w w' :
  rtc (core_step P) w w' →
  ∃ k, events w' = events w ++ replicate k false.
Proof. intros Hs. by destruct (core_steps_stay_blocked P w w' Hs). Qed.

(** X21.  No step of the core releases a cable or a system: a cable whose
    [broken] or [downstream_failure] signal is pending, and a system
    whose [cable_failure] signal is pending, is still there after any
    number of steps with that signal pending, be it the same event or a
    newer one; and [servicing] is never replaced. *)
Theorem core_never_unblocks P w w' :
  rtc (core_step P) w w' →
  (∀ e c, cables w !! e = Some c →
     ∃ c', cables w' !! e = Some c' ∧
       servicing c' = servicing c ∧
       (triggered w (broken c) = false → triggered w' (broken c') = false) ∧
       (triggered w (downstream_failure c) = false →
        triggered w' (downstream_failure c') = false)) ∧
  (∀ n s, systems w !! n = Some s →
     ∃ s', systems w' !! n = Some s' ∧
       (triggered w (cable_failure s) = false →
        triggered w' (cable_failure s') = false)).
Proof.
  intros Hs. destruct (core_steps_stay_blocked P w w' Hs) as (_ & Hc & Hn).
  split; [exact Hc | exact Hn].
Qed.

End Blockage.

Section Identity.
Context {M : Type} `{RepairManager M}.
Implicit Types w : World M.

Local Instance same_identity_preorder : PreOrder same_identity.
Proof.
  split.
  - intros c. by repeat split.
  - intros c1 c2 c3 (?&?&?&?&?&?&?&?&?) (?&?&?&?&?&?&?&?&?).
    repeat split; congruence.
Qed.

Local Instance same_system_preorder : PreOrder same_system.
Proof.
  split.
  - intros s. by destruct s.
  - intros s1 s2 s3 H12 H23. unfold same_system in *.
    rewrite H23 at 1. rewrite H12 at 1. reflexivity.
Qed.

Lemma option_Forall2_alter {K A} `{Countable K} (R : A → A → Prop)
    `{!Reflexive R} (f : A → A) (k k' : K) (m : gmap K A) :
  (∀ x, R x (f x)) → option_Forall2 R (m !! k') (alter f k m !! k').
Proof.
  intros Hf. destruct (decide (k = k')) as [-> | Hne].
  - rewrite lookup_alter_eq. destruct (m !! k'); constructor. apply Hf.
  - rewrite lookup_alter_ne by done. destruct (m !! k'); constructor.
    reflexivity.
Qed.

Local Instance same_farm_preorder : PreOrder (same_farm (M:=M)).
Proof.
  split.
  - intros w. repeat split; intros k.
    + destruct (cables w !! k); constructor. reflexivity.
    + destruct (systems w !! k); constructor. reflexivity.
  - intros w1 w2 w3 (?&?&?&?&Hc&Hs) (?&?&?&?&Hc'&Hs').
    split; [congruence |]. split; [congruence |]. split; [congruence |].
    split; [congruence |]. split.
    + intros e. specialize (Hc e). specialize (Hc' e).
      destruct Hc; inversion Hc'; subst; constructor. etrans; eauto.
    + intros n. specialize (Hs n). specialize (Hs' n).
      destruct Hs; inversion Hs'; subst; constructor. etrans; eauto.
Qed.

Lemma same_farm_cables w cs :
  (∀ e, option_Forall2 same_identity (cables w !! e) (cs !! e)) →
  ∀ ev, same_farm w (with_cables (with_events w ev) cs).
Proof.
  intros Hcs ev. repeat split; simpl; [exact Hcs |].
  intros n. destruct (systems w !! n); constructor. reflexivity.
Qed.

Lemma core_steps_same_farm P w w' :
  rtc (core_step P) w w' → same_farm w w'.
Proof.
  apply (core_steps_keep (same_farm (M:=M))).
  - intros w0 t. repeat split; simpl; intros k.
    + destruct (cables w0 !! k); constructor. reflexivity.
    + destruct (systems w0 !! k); constructor. reflexivity.
  - intros w0 m. repeat split; simpl; intros k.
    + destruct (cables w0 !! k); constructor. reflexivity.
    + destruct (systems w0 !! k); constructor. reflexivity.
  - intros w0 e q. repeat split; simpl; intros k.
    + apply option_Forall2_alter; [apply _ |]. intros c. by repeat split.
    + destruct (systems w0 !! k); constructor. reflexivity.
  - intros w0 e. repeat split; simpl; intros k.
    + apply option_Forall2_alter; [apply _ |]. intros c. by repeat split.
    + destruct (systems w0 !! k); constructor. reflexivity.
  - intros w0 e. repeat split; simpl; intros k.
    + apply option_Forall2_alter; [apply _ |]. intros c. by repeat split.
    + destruct (systems w0 !! k); constructor. reflexivity.
  - intros w0 n. repeat split; simpl; intros k.
    + destruct (cables w0 !! k); constructor. reflexivity.
    + apply option_Forall2_alter; [apply _ |]. intros s. reflexivity.
Qed.

(** X22.  Steps of the core add and remove no cable and no system, and
    leave each cable its connection type, end points, id, system, data,
    name, [servicing] event and processes, and each system its id, name
    and operating level: a shutdown of the upstream systems replaces
    their [cable_failure] and nothing else of them.  The clock, the
    horizon and the graph are not touched either. *)
Theorem core_keeps_identities P w w' :
  rtc (core_step P) w w' →
  now w' = now w ∧ max_run_time w' = max_run_time w ∧ graph w' = graph w ∧
  (∀ e, cables w !! e = None ↔ cables w' !! e = None) ∧
  (∀ n, systems w !! n = None ↔ systems w' !! n = None) ∧
  (∀ e c c', cables w !! e = Some c → cables w' !! e = Some c' →
     connection_type c' = connection_type c ∧
     start_node c' = start_node c ∧ end_node c' = end_node c ∧
     id c' = id c ∧ system c' = system c ∧ data c' = data c ∧
     name c' = name c ∧ servicing c' = servicing c ∧
     processes c' = processes c) ∧
  (∀ n s s', systems w !! n = Some s → systems w' !! n = Some s' →
     sys_id s' = sys_id s ∧ sys_name s' = sys_name s ∧
     sys_operating_level s' = sys_operating_level s).
Proof.
  intros Hsteps.
  destruct (core_steps_same_farm P w w' Hsteps) as (Hn & Hm & Hg & _ & Hc & Hs).
  split; [exact Hn |]. split; [exact Hm |]. split; [exact Hg |].
  split; [| split; [| split]].
  - intros e. specialize (Hc e). destruct Hc; split; congruence.
  - intros n. specialize (Hs n). destruct Hs; split; congruence.
  - intros e c c' Ec Ec'. specialize (Hc e). rewrite Ec, Ec' in Hc.
    by inversion Hc.
  - intros n s s' Es Es'. specialize (Hs n). rewrite Es, Es' in Hs.
    inversion Hs as [? ? Hss |]; subst. rewrite Hss. by repeat split.
Qed.

End Identity.

(** ** The further properties on the farm *)

Lemma farm0_cable_A_init :
  ∃ c w', Cable_init "array" "S" "T1" farm_data None farm0 = (inr c, w').
Proof. eexists _, _. vm_compute. reflexivity. Qed.

Lemma farm0_cable_leaf_init :
  ∃ c w', Cable_init "array" "T3" "T5" farm_data None farm0 = (inr c, w').
Proof. eexists _, _. vm_compute. reflexivity. Qed.

Lemma farm_active : active farm = None.
Proof. vm_compute. reflexivity. Qed.

Lemma farm_running_cable_A :
  cables (with_active farm (Some (A, KLevel 3))) !! A = Some cableA.
Proof. vm_compute. reflexivity. Qed.

Lemma farm5_cable_A : cables (with_now farm 5) !! A = Some cableA.
Proof. vm_compute. reflexivity. Qed.

Lemma farm100_now : (now (with_now farm 100) <= max_run_time (with_now farm 100))%Q.
Proof. vm_compute. discriminate. Qed.

Lemma farm_signals_A :
  triggered farm (servicing cableA) = true ∧
  triggered farm (downstream_failure cableA) = true ∧
  triggered farm (broken cableA) = true.
Proof. repeat split; vm_compute; reflexivity. Qed.




Lemma Cable_init_failure_leaves_state_witness :
  (Cable_init "array" "Z" "T1" farm_data None farm0).2 = farm0.
Proof.
  apply (Cable_init_failure_leaves_state "array" "Z" "T1" farm_data None
           farm0 (LookupError "Z")).
  vm_compute. reflexivity.
Defined.

Lemma Cable_init_rejects_connection_type_witness :
  Cable_init "feeder" "S" "T1" farm_data None farm0 =
  (inl (ValueError "connection_type"), farm0).
Proof.
  apply Cable_init_rejects_connection_type.
  - eexists. vm_compute. reflexivity.
  - eexists. vm_compute. reflexivity.
  - discriminate.
  - discriminate.
Defined.

Lemma Cable_init_signals_witness :
  ∃ c w', Cable_init "array" "S" "T1" farm_data None farm0 = (inr c, w') ∧
          events w' = events farm0 ++ [true; true; true] ∧
          triggered w' (broken c) = true.
Proof.
  destruct farm0_cable_A_init as (c & w' & Hinit).
  destruct (Cable_init_signals _ _ _ _ _ _ _ _ Hinit)
    as (Hev & _ & _ & _ & _ & _ & Hbr & _).
  exists c, w'. split; [exact Hinit |]. split; [exact Hev | exact Hbr].
Defined.

Lemma Cable_init_leaf_witness :
  ∃ c w', Cable_init "array" "T3" "T5" farm_data None farm0 = (inr c, w') ∧
          upstream_nodes c = ["T5"] ∧ upstream_cables c = [].
Proof.
  destruct farm0_cable_leaf_init as (c & w' & Hinit).
  exists c, w'. split; [exact Hinit |].
  apply (Cable_init_leaf "array" "T3" "T5" farm_data None farm0 c w');
    [vm_compute; reflexivity | exact Hinit].
Defined.

Lemma Cable_init_processes_witness :
  ∃ c w', Cable_init "array" "S" "T1" farm_data None farm0 = (inr c, w') ∧
          length (processes c) = 2%nat.
Proof.
  destruct farm0_cable_A_init as (c & w' & Hinit).
  destruct (Cable_init_processes _ _ _ _ _ _ _ _ Hinit) as (_ & Hlen & _).
  exists c, w'. split; [exact Hinit | exact Hlen].
Defined.

Lemma upstream_cables_are_the_reachable_edges_witness :
  ∃ c w', Cable_init "array" "S" "T1" farm_data None farm0 = (inr c, w') ∧
          NoDup (upstream_cables c).
Proof.
  destruct farm0_cable_A_init as (c & w' & Hinit).
  destruct (upstream_cables_are_the_reachable_edges _ _ _ _ _ _ _ _ Hinit)
    as [Hnd _].
  exists c, w'. split; [exact Hinit | exact Hnd].
Defined.

Lemma upstream_snapshots_agree_witness :
  ∃ c w', Cable_init "array" "S" "T1" farm_data None farm0 = (inr c, w') ∧
          "T1" ∈ upstream_nodes c.
Proof.
  destruct farm0_cable_A_init as (c & w' & Hinit).
  destruct (upstream_snapshots_agree _ _ _ _ _ _ _ _ Hinit) as [Hen _].
  exists c, w'. split; [exact Hinit | exact Hen].
Defined.

Lemma interrupt_processes_spares_caller_witness :
  ∃ t, interrupt_processes A (with_active farm (Some (A, KLevel 3))) =
         (inr tt,
          with_trace (with_active farm (Some (A, KLevel 3)))
            (trace (with_active farm (Some (A, KLevel 3))) ++ t)) ∧
       S (length t) = length (processes cableA).
Proof.
  destruct (interrupt_processes_spares_caller
              (with_active farm (Some (A, KLevel 3))) A cableA (KLevel 3)
              farm_running_cable_A
              ltac:(apply (bool_decide_unpack _); vm_compute; reflexivity)
              eq_refl
              ltac:(apply (bool_decide_unpack _); vm_compute; reflexivity))
    as (t & Hrun & _ & _ & Hlen).
  exists t. split; [exact Hrun | exact Hlen].
Defined.

Lemma interrupt_processes_from_outside_witness :
  interrupt_processes A farm =
  (inr tt,
   with_trace farm
     (trace farm ++ map (λ k, EInterrupt (A, k)) (processes cableA))).
Proof.
  apply (interrupt_processes_from_outside farm A cableA farm_cable_A).
  intros k. rewrite farm_active. discriminate.
Defined.

Lemma interrupt_while_broken_restarts_witness :
  run_single_failure 5 A fA AtCountdown Interrupt (counting 10 0)
    (with_now farm_broken 3) =
    failure_loop 5 A fA (counting 10 0) (with_now farm_broken 3) ∧
  run_single_maintenance 5 A m100 AtCountdown Interrupt (counting 10 0)
    (with_now farm_broken 3) =
    maintenance_loop 5 A m100 (counting 10 0) (with_now farm_broken 3).
Proof.
  apply (interrupt_while_broken_restarts 5 A fA m100 AtCountdown
           (counting 10 0) (with_now farm_broken 3) (set_broken cableA 21)
           farm3_broken_cable_A).
  - vm_compute. reflexivity.
  - discriminate.
Defined.

Lemma interrupt_at_gate_subtracts_again_witness :
  ∃ l1 y1 y2,
    run_single_failure 5 A fA AtCountdown Interrupt (counting 10 0)
      (with_now farm 3) = Suspended AtGate y1 l1 (with_now farm 3) ∧
    run_single_failure 5 A fA AtGate Interrupt l1 (with_now farm 5) =
      Suspended AtGate y2
        (set_hours_to_next l1
           (Some (10 - (now (with_now farm 3) - 0)
                  - (now (with_now farm 5) - 0))%Q))
        (with_now farm 5).
Proof.
  apply (interrupt_at_gate_subtracts_again 5 A fA (counting 10 0)
           (with_now farm 3) (with_now farm 5) cableA cableA 10 0
           farm3_cable_A farm5_cable_A).
  - vm_compute. reflexivity.
  - vm_compute. reflexivity.
  - reflexivity.
  - reflexivity.
  - vm_compute. reflexivity.
  - vm_compute. discriminate.
Defined.

Lemma interrupt_before_first_countdown_witness :
  ∃ y lf lm,
    start_single_failure 5 A fA farm = Suspended AtGate y lf farm ∧
    start_single_maintenance 5 A m100 farm = Suspended AtGate y lm farm ∧
    run_single_failure 5 A fA AtGate Interrupt lf farm =
      Raised (UnboundLocalError "start") farm.
Proof.
  destruct (interrupt_before_first_countdown 4 5 A fA m100 farm cableA 10
              farm_cable_A eq_refl ltac:(vm_compute; reflexivity)
              ltac:(vm_compute; reflexivity))
    as (y & lf & lm & Hf & Hm & Hint).
  exists y, lf, lm. split; [exact Hf |]. split; [exact Hm |].
  destruct farm_signals_A as (_ & _ & Hbr).
  exact (proj1 (Hint farm cableA farm_cable_A Hbr)).
Defined.

Lemma maintenance_horizon_interrupt_waits_on_witness :
  ∃ l', run_single_maintenance 5 A m0 AtHorizon Interrupt
          {| hours_to_next := Some (frequency m0); remainder := Some 500%Q;
             start := None; draws := 0 |} (with_now farm 100) =
        Suspended AtHorizon
          (Timeout (max_run_time (with_now farm 100) - now (with_now farm 100)))
          l' (with_now farm 100) ∧
        hours_to_next l' = Some (frequency m0).
Proof.
  apply (maintenance_horizon_interrupt_waits_on 4 A m0 _ (with_now farm 100)
           500).
  - vm_compute. reflexivity.
  - reflexivity.
  - reflexivity.
  - exact farm100_now.
Defined.


Lemma maintenance_repeats_every_frequency_witness :
  ∃ l' w',
    uninterrupted (2 * 3) (A, KMaint 0) (run_single_maintenance 5 A m100)
      (start_single_maintenance 5 A m100 farm) =
      Suspended AtGate
        (AllOf (servicing cableA) (downstream_failure cableA) (broken cableA))
        l' w' ∧
    (now w' == now farm + inject_Z (Z.of_nat 3) * frequency m100)%Q ∧
    length (items (manager w')) = (length (items (manager farm)) + 3)%nat.
Proof.
  destruct farm_signals_A as (Hsv & Hdf & Hbr).
  destruct (maintenance_repeats_every_frequency 3 4 (A, KMaint 0) A m100 farm
              cableA (turbine "S" 0) farm_cable_A farm_system_S
              ltac:(vm_compute; reflexivity) Hsv Hdf Hbr)
    as (l' & w' & Hrun & _ & _ & _ & Hnow & _ & _ & Hit).
  exists l', w'. split; [exact Hrun |]. split; [exact Hnow | exact Hit].
Defined.


Lemma catastrophic_failure_holds_own_timer_witness :
  ∃ c' l' w',
    run_single_failure 5 A fA AtCountdown Resume (counting 10 0) farm =
      Suspended AtGate
        (AllOf (servicing cableA) (downstream_failure c') (broken c')) l' w' ∧
    triggered w' (broken c') = false.
Proof.
  destruct (catastrophic_failure_holds_own_timer 4 A fA (counting 10 0) farm
              cableA 10 farm_cable_A ltac:(vm_compute; reflexivity)
              ltac:(rewrite farm_system_S; by eexists)
              farm_upstream_systems farm_upstream_cables eq_refl
              ltac:(vm_compute; reflexivity))
    as (c' & l' & w' & Hrun & _ & _ & Hpend & _).
  exists c', l', w'. split; [exact Hrun | exact Hpend].
Defined.


Lemma core_only_adds_pending_events_witness :
  ∃ k, events (outcome_world
                 (run_single_failure 5 A fA AtCountdown Resume
                    (counting 10 0) farm)) =
       events farm ++ replicate k false.
Proof.
  apply (core_only_adds_pending_events (λ _, True) farm
           (outcome_world
              (run_single_failure 5 A fA AtCountdown Resume
                 (counting 10 0) farm))).
  apply rtc_once.
  exact (step_failure (λ _, True) farm 5 A fA AtCountdown Resume
           (counting 10 0) I).
Defined.

Lemma core_never_unblocks_witness :
  ∃ c', cables (outcome_world
                  (run_single_failure 5 A fA AtCountdown Interrupt
                     (counting 10 0) farm_broken)) !! A = Some c' ∧
        triggered (outcome_world
                     (run_single_failure 5 A fA AtCountdown Interrupt
                        (counting 10 0) farm_broken)) (broken c') = false.
Proof.
  destruct (core_never_unblocks (λ _, True) farm_broken
              (outcome_world
                 (run_single_failure 5 A fA AtCountdown Interrupt
                    (counting 10 0) farm_broken)))
    as [Hcables _].
  { apply rtc_once.
    exact (step_failure (λ _, True) farm_broken 5 A fA AtCountdown Interrupt
             (counting 10 0) I). }
  destruct (Hcables A _ farm_broken_cable_A) as (c' & Hc' & _ & Hbr & _).
  exists c'. split; [exact Hc' |]. apply Hbr. vm_compute. reflexivity.
Defined.

Lemma core_keeps_identities_witness :
  now (outcome_world
         (run_single_failure 5 A fA AtCountdown Resume (counting 10 0) farm)) =
  now farm.
Proof.
  destruct (core_keeps_identities (λ _, True) farm
              (outcome_world
                 (run_single_failure 5 A fA AtCountdown Resume
                    (counting 10 0) farm)))
    as [Hnow _].
  { apply rtc_once.
    exact (step_failure (λ _, True) farm 5 A fA AtCountdown Resume
             (counting 10 0) I). }
  exact Hnow.
Defined.
